(** * dynamax: linear-regression HMM (EM), blocked Gibbs sampler for LGSSMs,
      and parameter (un)constraining

    A shallow embedding of
      - [dynamax/hmm/models/linreg_hmm.py]   (module [LinearRegressionHMM]),
      - [ssm_jax/linear_gaussian_ssm/blocked_gibbs.py] (module [BlockedGibbs]),
      - [dynamax/parameters.py]              (module [Parameters]).

    Arrays are MathComp matrices over an ordered field [R]: the floating-point
    numbers of the program are idealised as exact field elements, so every
    statement below is about the arithmetic the code performs, not about its
    rounding.  A one-dimensional array of length [n] is a row vector
    ['rV_n]; an array with a leading batch axis of length [K] and matrix
    entries is a finite function from ['I_K] to matrices.  *)

From HB Require Import structures.
From mathcomp Require Import boot order algebra.
From Stdlib Require Import String Ascii.

Set Implicit Arguments.
Unset Strict Implicit.
Unset Printing Implicit Defensive.

Import GRing.Theory Num.Theory Order.POrderTheory.
Local Open Scope ring_scope.

(** ** Array operations shared by the three files *)

Section ArrayOps.

Variable R : realFieldType.

(** [A.T == A]. *)
Definition symmetric n (A : 'M[R]_n) : Prop := A^T = A.

(** Positive semi-definiteness of the quadratic form of [A]. *)
Definition psd n (A : 'M[R]_n) : Prop :=
  forall v : 'rV[R]_n, 0 <= (v *m A *m v^T) 0 0.

(** [jnp.linalg.solve(A, B)]: the [X] with [A @ X = B].  It is [A^-1 B] when
    [A] is invertible; for a singular [A] the library routine returns
    non-finite numbers, and the value of this definition carries no
    meaning there. *)
Definition solve n p (A : 'M[R]_n) (B : 'M[R]_(n, p)) : 'M[R]_(n, p) :=
  invmx A *m B.

(** [jnp.outer(u, v)] on one-dimensional arrays. *)
Definition outer m n (u : 'rV[R]_m) (v : 'rV[R]_n) : 'M[R]_(m, n) := u^T *m v.

(** [jnp.einsum("tk->k", w)]. *)
Definition einsum_tk_k T K (w : 'M[R]_(T, K)) : 'rV[R]_K :=
  \row_k \sum_t w t k.

(** [jnp.einsum("tk,ti->ki", w, a)]. *)
Definition einsum_tk_ti_ki T K d (w : 'M[R]_(T, K)) (a : 'M[R]_(T, d))
  : 'M[R]_(K, d) :=
  \matrix_(k, i) \sum_t w t k * a t i.

(** [jnp.einsum("tk,ti,tj->kij", w, a, b)]. *)
Definition einsum_tk_ti_tj_kij T K d e (w : 'M[R]_(T, K))
    (a : 'M[R]_(T, d)) (b : 'M[R]_(T, e)) : {ffun 'I_K -> 'M[R]_(d, e)} :=
  [ffun k => \matrix_(i, j) \sum_t w t k * a t i * b t j].

End ArrayOps.

(** ** [dynamax/parameters.py] *)

Module Parameters.

(** A PyTree of nested dictionaries: a leaf, or a dictionary given by its
    entries in the (sorted) key order in which JAX flattens it. *)
Inductive pytree (A : Type) : Type :=
  | Leaf (a : A)
  | Node (children : seq (string * pytree A)).

Arguments Leaf {A} a.
Arguments Node {A} children.

(** [ParameterProperties], over the type of bijectors. *)
Record ParameterProperties (B : Type) := MkParameterProperties {
  trainable : bool;
  constrainer : option B
}.

(** [ParameterProperties()]: trainable, no constrainer. *)
Definition default_properties (B : Type) : ParameterProperties B :=
  {| trainable := true; constrainer := None |}.

Section Entries.

Variables (X Y Z : Type).

(** The entries of two dictionaries, combined key by key; [None] when the
    keys differ or [g] fails on an entry. *)
Fixpoint map_entries (g : X -> Y -> option Z) (ts : seq (string * X))
    (us : seq (string * Y)) : option (seq (string * Z)) :=
  match ts, us with
  | [::], [::] => Some [::]
  | (k, t) :: ts', (k', u) :: us' =>
      if String.eqb k k' then
        match g t u, map_entries g ts' us' with
        | Some v, Some vs => Some ((k, v) :: vs)
        | _, _ => None
        end
      else None
  | _, _ => None
  end.

(** The two dictionaries have the same keys and [Q] holds entry by entry. *)
Fixpoint all_entries (Q : X -> Y -> Prop) (ts : seq (string * X))
    (us : seq (string * Y)) : Prop :=
  match ts, us with
  | [::], [::] => True
  | (k, t) :: ts', (k', u) :: us' =>
      [/\ String.eqb k k' = true, Q t u & all_entries Q ts' us']
  | _, _ => False
  end.

End Entries.

Section TreeMap.

Variables (A B C : Type).

(** [tree_map(f, t, u, is_leaf=...)] on two trees: [f] at the matching
    leaves; the call raises when the structures differ, which is [None]
    here.  The leaves of the second tree are the nodes [is_leaf] accepts. *)
Fixpoint tree_map (f : A -> B -> C) (t : pytree A) (u : pytree B)
  : option (pytree C) :=
  match t, u with
  | Leaf a, Leaf b => Some (Leaf (f a b))
  | Node ts, Node us => omap Node (map_entries (tree_map f) ts us)
  | _, _ => None
  end.

(** [P] holds at every pair of matching leaves of two trees of the same
    structure. *)
Fixpoint tree_all2 (P : A -> B -> Prop) (t : pytree A) (u : pytree B) : Prop :=
  match t, u with
  | Leaf a, Leaf b => P a b
  | Node ts, Node us => all_entries (tree_all2 P) ts us
  | _, _ => False
  end.

End TreeMap.

Section Constrain.

(** The type of parameter values (arrays). *)
Variable V : Type.

(** A [tfb.Bijector]: the map to constrained form, its inverse, and the
    set of constrained values the inverse is defined on. *)
Record Bijector := MkBijector {
  forward : V -> V;
  inverse : V -> V;
  constrained : V -> Prop
}.

(** The law of a bijector: [forward] undoes [inverse] on constrained
    values. *)
Definition lawful (b : Bijector) : Prop :=
  forall y, constrained b y -> forward b (inverse b y) = y.

(** [lax.stop_gradient] leaves the value unchanged. *)
Definition stop_gradient (value : V) : V := value.

(** [to_unconstrained] *)
Definition to_unconstrained (params : pytree V)
    (props : pytree (ParameterProperties Bijector)) : option (pytree V) :=
  let to_unc := fun value prop =>
    if constrainer prop is Some c then inverse c value else value in
  tree_map to_unc params props.

(** [from_unconstrained] *)
Definition from_unconstrained (unc_params : pytree V)
    (props : pytree (ParameterProperties Bijector)) : option (pytree V) :=
  let from_unc := fun unc_value prop =>
    let value :=
      if constrainer prop is Some c then forward c unc_value else unc_value in
    let value := if ~~ trainable prop then stop_gradient value else value in
    value in
  tree_map from_unc unc_params props.

(** A leaf value is a constrained value of its constrainer, which obeys
    the bijector law. *)
Definition constrained_leaf (value : V) (prop : ParameterProperties Bijector)
  : Prop :=
  if constrainer prop is Some c then lawful c /\ constrained c value else True.

End Constrain.

(** An example over the integers: the constrainer doubles, and its inverse
    halves the even numbers. *)
Definition doubling : Bijector int :=
  {| forward := fun x => (x * 2)%R;
     inverse := fun y => (sgz y * (`|y| %/ 2)%:Z)%R;
     constrained := fun y => (2 %| `|y|)%N |}.

Definition example_params : pytree int :=
  Node [:: ("emissions"%string,
            Node [:: ("covs"%string, Leaf (4 : int));
                     ("weights"%string, Leaf (3 : int))])].

Definition example_props : pytree (ParameterProperties (Bijector int)) :=
  Node [:: ("emissions"%string,
            Node [:: ("covs"%string,
                      Leaf (MkParameterProperties true (Some doubling)));
                     ("weights"%string,
                      Leaf (MkParameterProperties false None))])].

Section Structure.

Variables (A B : Type).

(** Two dictionaries have the same keys, in order, and entries that [g]
    accepts. *)
Fixpoint same_entries (X Y : Type) (g : X -> Y -> bool)
    (ts : seq (string * X)) (us : seq (string * Y)) : bool :=
  match ts, us with
  | [::], [::] => true
  | (k, t) :: ts', (k', u) :: us' =>
      [&& String.eqb k k', g t u & same_entries g ts' us']
  | _, _ => false
  end.

(** Two trees have the same structure: leaves where the other has leaves,
    and dictionaries with the same keys. *)
Fixpoint same_structure (t : pytree A) (u : pytree B) : bool :=
  match t, u with
  | Leaf _, Leaf _ => true
  | Node ts, Node us => same_entries same_structure ts us
  | _, _ => false
  end.

(** [tree_leaves]: the leaves, in flattening order. *)
Fixpoint tree_leaves (t : pytree A) : seq A :=
  match t with
  | Leaf a => [:: a]
  | Node ts => flatten [seq tree_leaves kt.2 | kt <- ts]
  end.

End Structure.

Section LogDet.

Variable V : Type.

(** The scalars log-determinants are added in. *)
Variable R : zmodType.

(** [c.forward_log_det_jacobian(unc_value).sum()], a function of the
    bijector library. *)
Variable forward_log_det_jacobian_sum : Bijector V -> V -> R.

(** [tree_reduce(add, tree, 0.0)] *)
Definition tree_reduce_add (t : pytree R) : R :=
  foldl +%R 0 (tree_leaves t).

(** [log_det_jac_constrain] *)
Definition log_det_jac_constrain (unc_params : pytree V)
    (props : pytree (ParameterProperties (Bijector V))) : option R :=
  let _compute_logdet := fun unc_value prop =>
    let logdet :=
      if constrainer prop is Some c
      then forward_log_det_jacobian_sum c unc_value else 0 in
    if trainable prop then logdet else 0 in
  let logdets := tree_map _compute_logdet unc_params props in
  omap tree_reduce_add logdets.

(** At an unconstrained leaf value, [inverse] undoes [forward]. *)
Definition unconstrained_leaf (unc_value : V)
    (prop : ParameterProperties (Bijector V)) : Prop :=
  if constrainer prop is Some c
  then inverse c (forward c unc_value) = unc_value else True.

(** A leaf that adds nothing to the log-determinant: it is not trainable,
    or it has no constrainer. *)
Definition fixed_or_free_leaf (unc_value : V)
    (prop : ParameterProperties (Bijector V)) : Prop :=
  trainable prop = false \/ constrainer prop = None.

End LogDet.

(** The example tree in unconstrained form, and two more property trees:
    one without constrainers, one whose constrained leaf is not
    trainable. *)
Definition example_unc_params : pytree int :=
  Node [:: ("emissions"%string,
            Node [:: ("covs"%string, Leaf (2 : int));
                     ("weights"%string, Leaf (3 : int))])].

Definition example_props_plain : pytree (ParameterProperties (Bijector int)) :=
  Node [:: ("emissions"%string,
            Node [:: ("covs"%string, Leaf (default_properties _));
                     ("weights"%string, Leaf (default_properties _))])].

Definition example_props_fixed : pytree (ParameterProperties (Bijector int)) :=
  Node [:: ("emissions"%string,
            Node [:: ("covs"%string,
                      Leaf (MkParameterProperties false (Some doubling)));
                     ("weights"%string,
                      Leaf (MkParameterProperties true None))])].

End Parameters.

(** ** [dynamax/hmm/models/linreg_hmm.py] *)

Module LinearRegressionHMM.

Section Model.

Variable R : realFieldType.

(** [self.num_states], [self.covariate_dim], [self.emission_dim]. *)
Variables (num_states covariate_dim emission_dim : nat).

(** [params["emissions"]]: one weight matrix, bias vector and covariance per
    state. *)
Record emission_params := EmissionParams {
  weights : {ffun 'I_num_states -> 'M[R]_(emission_dim, covariate_dim)};
  biases : 'M[R]_(num_states, emission_dim);
  covs : {ffun 'I_num_states -> 'M[R]_emission_dim}
}.

(** The parameter dictionary.  Its ["initial"] and ["transitions"] entries
    are made by the base class (not part of this file) and are carried
    around as [base]. *)
Record hmm_params (Base : Type) := HmmParams {
  base : Base;
  emissions : emission_params
}.

(** The dictionary of expected sufficient statistics, every entry with a
    leading axis over the states. *)
Record suff_stats := SuffStats {
  sum_w : 'rV[R]_num_states;
  sum_x : 'M[R]_(num_states, covariate_dim);
  sum_y : 'M[R]_(num_states, emission_dim);
  sum_xxT : {ffun 'I_num_states -> 'M[R]_(covariate_dim, covariate_dim)};
  sum_xyT : {ffun 'I_num_states -> 'M[R]_(covariate_dim, emission_dim)};
  sum_yyT : {ffun 'I_num_states -> 'M[R]_(emission_dim, emission_dim)}
}.

(** [_zeros_like_suff_stats] *)
Definition _zeros_like_suff_stats : suff_stats :=
  SuffStats 0 0 0 [ffun=> 0] [ffun=> 0] [ffun=> 0].

(** [_compute_expected_suff_stats] ([params] is not read by the code). *)
Definition _compute_expected_suff_stats (Base : Type) (T : nat)
    (params : hmm_params Base) (emissions : 'M[R]_(T, emission_dim))
    (expected_states : 'M[R]_(T, num_states))
    (covariates : 'M[R]_(T, covariate_dim)) : suff_stats :=
  {| sum_w := einsum_tk_k expected_states;
     sum_x := einsum_tk_ti_ki expected_states covariates;
     sum_y := einsum_tk_ti_ki expected_states emissions;
     sum_xxT := einsum_tk_ti_tj_kij expected_states covariates covariates;
     sum_xyT := einsum_tk_ti_tj_kij expected_states covariates emissions;
     sum_yyT := einsum_tk_ti_tj_kij expected_states emissions emissions |}.

(** One slice of the statistics along the state axis: what [vmap] hands to
    [_single_m_step]. *)
Record state_stats := StateStats {
  s_w : R;
  s_x : 'rV[R]_covariate_dim;
  s_y : 'rV[R]_emission_dim;
  s_xxT : 'M[R]_(covariate_dim, covariate_dim);
  s_xyT : 'M[R]_(covariate_dim, emission_dim);
  s_yyT : 'M[R]_(emission_dim, emission_dim)
}.

Definition stats_at (stats : suff_stats) (k : 'I_num_states) : state_stats :=
  {| s_w := sum_w stats 0 k;
     s_x := row k (sum_x stats);
     s_y := row k (sum_y stats);
     s_xxT := sum_xxT stats k;
     s_xyT := sum_xyT stats k;
     s_yyT := sum_yyT stats k |}.

(** The block matrix [sum_x1x1T] of [_single_m_step]:
    [[sum_xxT, sum_x[:, None]], [sum_x[None, :], sum_w[None, None]]]. *)
Definition sum_x1x1T (st : state_stats) : 'M[R]_(covariate_dim + 1) :=
  block_mx (s_xxT st) (s_x st)^T (s_x st) (s_w st)%:M.

(** [sum_x1yT = jnp.vstack([sum_xyT, sum_y])]. *)
Definition sum_x1yT (st : state_stats)
  : 'M[R]_(covariate_dim + 1, emission_dim) :=
  col_mx (s_xyT st) (s_y st).

(** [Ab = jnp.linalg.solve(sum_x1x1T, sum_x1yT).T]. *)
Definition Ab_of (st : state_stats)
  : 'M[R]_(emission_dim, covariate_dim + 1) :=
  (solve (sum_x1x1T st) (sum_x1yT st))^T.

(** [Sigma = 1 / sum_w * (sum_yyT - Ab @ sum_x1yT)], before it is averaged
    with its transpose. *)
Definition Sigma_of (st : state_stats) : 'M[R]_emission_dim :=
  (1 / s_w st) *: (s_yyT st - Ab_of st *m sum_x1yT st).

(** [_single_m_step]: returns [Ab[:, :-1], Ab[:, -1], Sigma]. *)
Definition _single_m_step (st : state_stats)
  : 'M[R]_(emission_dim, covariate_dim) * 'rV[R]_emission_dim
    * 'M[R]_emission_dim :=
  let sum_x1x1T := sum_x1x1T st in
  let sum_x1yT := sum_x1yT st in
  let Ab := (solve sum_x1x1T sum_x1yT)^T in
  let Sigma := (1 / s_w st) *: (s_yyT st - Ab *m sum_x1yT) in
  let Sigma := 2^-1 *: (Sigma + Sigma^T) in
  (lsubmx Ab, (rsubmx Ab)^T, Sigma).

(** [_m_step_emissions]: [vmap] of [_single_m_step] over the states, stored
    into [params["emissions"]]. *)
Definition _m_step_emissions (Base Props : Type) (params : hmm_params Base)
    (param_props : Props) (emission_stats : suff_stats) : hmm_params Base :=
  let res := fun k => _single_m_step (stats_at emission_stats k) in
  {| base := base params;
     emissions :=
       {| weights := [ffun k => (res k).1.1];
          biases := \matrix_(k < num_states) (res k).1.2;
          covs := [ffun k => (res k).2] |} |}.

End Model.

(** What a call does: it returns, or it raises. *)
Inductive outcome (A : Type) : Type :=
  | Return (a : A)
  | AssertionError (msg : string)
  | Exception (msg : string).

Arguments Return {A} a.
Arguments AssertionError {A} msg.
Arguments Exception {A} msg.

(** [str.lower] on ASCII strings. *)
Definition lower_ascii (c : ascii) : ascii :=
  let n := nat_of_ascii c in
  if (65 <= n)%N && (n <= 90)%N then ascii_of_nat (n + 32) else c.

Fixpoint lower (s : string) : string :=
  match s with
  | EmptyString => EmptyString
  | String c s' => String (lower_ascii c) (lower s')
  end.

Section Initialize.

Variable R : realFieldType.
Variables (num_states covariate_dim emission_dim : nat).

(** What [initialize] calls and this file does not define: [jax.random],
    the base class's [initialize] (which makes the ["initial"] and
    ["transitions"] entries of the parameters and of their properties),
    scikit-learn's [KMeans(k).fit(data).cluster_centers_], and the
    constrainer [tfb.Invert(PSDToRealBijector)] of the covariances. *)
Record hmm_externals := HmmExternals {
  PRNGKey : Type;
  jr_split : PRNGKey -> forall n : nat, n.-tuple PRNGKey;
  jr_normal : PRNGKey -> forall m n : nat, 'M[R]_(m, n);
  jr_normal3 : PRNGKey -> forall k m n : nat, {ffun 'I_k -> 'M[R]_(m, n)};
  Base : Type;
  BaseProps : Type;
  super_initialize :
    PRNGKey -> string -> option 'rV[R]_num_states ->
    option 'M[R]_num_states -> Base * BaseProps;
  KMeans_cluster_centers : forall k N d : nat, 'M[R]_(N, d) -> 'M[R]_(k, d);
  Constrainer : Type;
  Invert_PSDToRealBijector : Constrainer
}.

Variable E : hmm_externals.

(** [props["emissions"]] and the property dictionary. *)
Record emission_props := EmissionProps {
  weights_props : Parameters.ParameterProperties (Constrainer E);
  biases_props : Parameters.ParameterProperties (Constrainer E);
  covs_props : Parameters.ParameterProperties (Constrainer E)
}.

Record hmm_props := HmmProps {
  base_props : BaseProps E;
  emissions_props : emission_props
}.

(** The value [initialize] stores in [props["emissions"]]. *)
Definition initial_emission_props : emission_props :=
  {| weights_props := Parameters.default_properties _;
     biases_props := Parameters.default_properties _;
     covs_props :=
       Parameters.MkParameterProperties true
         (Some (Invert_PSDToRealBijector E)) |}.

(** [initialize].  [emissions] is given in the shape
    [emissions.reshape(-1, emission_dim)] the method clusters it in. *)
Definition initialize (key : PRNGKey E) (method : string)
    (initial_probs : option 'rV[R]_num_states)
    (transition_matrix : option 'M[R]_num_states)
    (emission_weights :
       option {ffun 'I_num_states -> 'M[R]_(emission_dim, covariate_dim)})
    (emission_biases : option 'M[R]_(num_states, emission_dim))
    (emission_covariances :
       option {ffun 'I_num_states -> 'M[R]_emission_dim})
    (emissions : option {N : nat & 'M[R]_(N, emission_dim)})
  : outcome (hmm_params R num_states covariate_dim emission_dim (Base E)
             * hmm_props) :=
  let keys := jr_split key 2 in
  let this_key := tnth keys ord0 in
  let key := tnth keys ord_max in
  let: (params, props) :=
    super_initialize this_key method initial_probs transition_matrix in
  let store := fun _emission_weights _emission_biases _emission_covs =>
    let default := fun (X : Type) (x : option X) (x0 : X) =>
      if x is Some v then v else x0 in
    Return
      ({| base := params;
          emissions :=
            {| weights := default _ emission_weights _emission_weights;
               biases := default _ emission_biases _emission_biases;
               covs := default _ emission_covariances _emission_covs |} |},
       {| base_props := props;
          emissions_props := initial_emission_props |}) in
  if String.eqb (lower method) "kmeans" then
    match emissions with
    | None =>
        AssertionError "Need emissions to initialize the model with K-Means!"
    | Some ems =>
        let cluster_centers_ :=
          KMeans_cluster_centers E num_states (projT2 ems) in
        store [ffun=> 0] cluster_centers_ [ffun=> 1%:M]
    end
  else if String.eqb (lower method) "prior" then
    let keys := jr_split key 3 in
    let key1 := tnth keys ord0 in
    let key2 := tnth keys (lift ord0 ord0) in
    store [ffun k => 100^-1
                     *: jr_normal3 key1 num_states emission_dim covariate_dim k]
          (jr_normal key2 num_states emission_dim)
          [ffun=> 1%:M]
  else Exception ("Invalid initialization method: " ++ method).

End Initialize.

Section Emission.

Variable R : realFieldType.
Variables (num_states covariate_dim emission_dim : nat).

(** [emission_shape] and [covariates_shape]. *)
Definition emission_shape : seq nat := [:: emission_dim].
Definition covariates_shape : seq nat := [:: covariate_dim].

(** A [tfd.MultivariateNormalFullCovariance], by its two arguments. *)
Record MultivariateNormalFullCovariance := MkMVN {
  loc : 'rV[R]_emission_dim;
  covariance_matrix : 'M[R]_emission_dim
}.

(** [emission_distribution]: the prediction is
    [weights[state] @ covariates + biases[state]]. *)
Definition emission_distribution (Base : Type)
    (params : hmm_params R num_states covariate_dim emission_dim Base)
    (state : 'I_num_states) (covariates : 'rV[R]_covariate_dim)
  : MultivariateNormalFullCovariance :=
  let prediction := covariates *m (weights (emissions params) state)^T in
  let prediction := prediction + row state (biases (emissions params)) in
  MkMVN prediction (covs (emissions params) state).

(** The weighted second moment of the residuals of a candidate coefficient
    matrix [C = [A | b]] on a data set, for state [k]:
    [sum_t w[t,k] r_t r_t^T] with [r_t = y_t - A x_t - b]. *)
Definition residual_moment (T : nat) (emissions : 'M[R]_(T, emission_dim))
    (expected_states : 'M[R]_(T, num_states))
    (covariates : 'M[R]_(T, covariate_dim)) (k : 'I_num_states)
    (C : 'M[R]_(emission_dim, covariate_dim + 1)) : 'M[R]_emission_dim :=
  \sum_t expected_states t k
         *: outer (row t emissions - row_mx (row t covariates) 1 *m C^T)
                  (row t emissions - row_mx (row t covariates) 1 *m C^T).

End Emission.

End LinearRegressionHMM.

(** Concrete statistics and data for the linear-regression HMM. *)

Module LinearRegressionHMMData.

Import LinearRegressionHMM.

(** One state, one covariate, one emission dimension, over the rationals. *)
Definition unit_params : hmm_params rat 1 1 1 unit :=
  HmmParams tt (EmissionParams [ffun=> 0] 0 [ffun=> 0]).


(** Two time steps with covariates [1, -1], emissions [1, 3] and weights
    [1/2, 1/2]. *)
Definition two_covariates : 'M[rat]_(2, 1) :=
  \matrix_(t, j) (if t == 0 :> nat then 1 else -1).

Definition two_emissions : 'M[rat]_(2, 1) :=
  \matrix_(t, j) (if t == 0 :> nat then 1 else 3).

Definition two_weights : 'M[rat]_(2, 1) := const_mx 2^-1.


(** An implementation of the imports of [initialize] without randomness:
    every draw and every cluster centre is [0], the base class contributes
    nothing. *)
Definition plain_externals : hmm_externals rat 1 :=
  {| PRNGKey := unit;
     jr_split := fun _ n => [tuple of nseq n tt];
     jr_normal := fun _ m n => 0;
     jr_normal3 := fun _ k m n => [ffun=> 0];
     Base := unit;
     BaseProps := unit;
     super_initialize := fun _ _ _ _ => (tt, tt);
     KMeans_cluster_centers := fun k N d _ => 0;
     Constrainer := unit;
     Invert_PSDToRealBijector := tt |}.

End LinearRegressionHMMData.

(** ** [ssm_jax/linear_gaussian_ssm/blocked_gibbs.py] *)

Module BlockedGibbs.

(** [lax.scan(f, init, xs)]: threads the carry through [xs] and stacks the
    per-step outputs. *)
Fixpoint scan (C X Y : Type) (f : C -> X -> C * Y) (init : C) (xs : seq X)
  : C * seq Y :=
  match xs with
  | [::] => (init, [::])
  | x :: xs' =>
      let: (c, y) := f init x in
      let: (c', ys) := scan f c xs' in
      (c', y :: ys)
  end.

(** The carry handed to step [i] of [scan f init xs], that is the carry left
    by the first [i] steps. *)
Definition scan_carry (C X Y : Type) (f : C -> X -> C * Y) (init : C)
    (xs : seq X) (i : nat) : C :=
  (scan f init (take i xs)).1.

Section Params.

Variable R : realFieldType.

(** [jnp.mean] of a one-dimensional array. *)
Definition mean d (v : 'rV[R]_d) : R := (\sum_j v 0 j) / d%:R.

(** [LGSSMParams], with hidden, observed and input dimensions. *)
Record LGSSMParams (D_hid D_obs D_in : nat) := MkLGSSMParams {
  initial_mean : 'rV[R]_D_hid;
  initial_covariance : 'M[R]_D_hid;
  dynamics_matrix : 'M[R]_(D_hid, D_hid);
  dynamics_input_weights : 'M[R]_(D_hid, D_in);
  dynamics_covariance : 'M[R]_D_hid;
  emission_matrix : 'M[R]_(D_obs, D_hid);
  emission_input_weights : 'M[R]_(D_obs, D_in);
  emission_covariance : 'M[R]_D_obs
}.

(** The number of columns of an array, [A.shape[1]]. *)
Definition shape1 m n (A : 'M[R]_(m, n)) : nat := n.

(** What the sampler imports: [jax.random], [jnp.std], the two conjugate
    prior families of [ssm_jax.distributions] with their posterior updates,
    and [lgssm_posterior_sample] of [ssm_jax.linear_gaussian_ssm.inference].
    None of them is defined in this file of the repository, so the sampler
    is stated over any implementation of this interface.  An [NIW d] is a
    distribution over pairs (covariance, mean) in dimension [d]; an
    [MNIW r c] is one over pairs (covariance, [r x c] coefficient matrix).
    Statistics carry their count as a Python integer. *)
Record externals := Externals {
  PRNGKey : Type;
  jr_split : PRNGKey -> forall n : nat, n.-tuple PRNGKey;
  jr_uniform : PRNGKey -> forall m n : nat, 'M[R]_(m, n);
  jnp_std : forall T d : nat, 'M[R]_(T, d) -> 'rV[R]_d;
  NIW : nat -> Type;
  NIW_init : forall d, 'rV[R]_d -> R -> R -> 'M[R]_d -> NIW d;
  niw_log_prob : forall d, NIW d -> 'M[R]_d * 'rV[R]_d -> R;
  niw_mode : forall d, NIW d -> 'M[R]_d * 'rV[R]_d;
  niw_sample : forall d, NIW d -> PRNGKey -> 'M[R]_d * 'rV[R]_d;
  niw_posterior_update :
    forall d, NIW d -> 'rV[R]_d * 'M[R]_d * int -> NIW d;
  MNIW : nat -> nat -> Type;
  MNIW_init :
    forall r c, 'M[R]_(r, c) -> 'M[R]_c -> R -> 'M[R]_r -> MNIW r c;
  mniw_log_prob : forall r c, MNIW r c -> 'M[R]_r * 'M[R]_(r, c) -> R;
  mniw_mode : forall r c, MNIW r c -> 'M[R]_r * 'M[R]_(r, c);
  mniw_sample : forall r c, MNIW r c -> PRNGKey -> 'M[R]_r * 'M[R]_(r, c);
  mniw_posterior_update :
    forall r c, MNIW r c -> 'M[R]_c * 'M[R]_(c, r) * 'M[R]_r * int
                -> MNIW r c;
  lgssm_posterior_sample :
    forall T D_hid D_obs D_in, PRNGKey -> LGSSMParams D_hid D_obs D_in ->
      'M[R]_(T, D_obs) -> 'M[R]_(T, D_in) -> R * 'M[R]_(T, D_hid)
}.

End Params.

Section Sampler.

Variable R : realFieldType.
Variable E : externals R.

(** [num_timesteps = len(emissions)] is [T.+1]: the sampler indexes the
    first emission and the first state, so it cannot run on an empty
    sequence.  [D_obs = emissions.shape[1]]; [D_in = inputs.shape[1]]. *)
Variables (T D_hid D_obs D_in : nat).

Local Notation num_timesteps := T.+1.
Local Notation params_t := (LGSSMParams R D_hid D_obs D_in).
Local Notation initial_prior_t := (NIW E D_hid).
Local Notation dynamics_prior_t := (MNIW E D_hid (D_hid + D_in)).
Local Notation emission_prior_t := (MNIW E D_obs (D_hid + D_in)).

Definition priors_t : Type :=
  (option initial_prior_t * option dynamics_prior_t
   * option emission_prior_t)%type.

Variable key : PRNGKey E.
Variable emissions : 'M[R]_(num_timesteps, D_obs).
Variable inputs : 'M[R]_(num_timesteps, D_in).

(** The default priors, and the unpacking of [priors]. *)
Definition scale_obs : R := mean (jnp_std E emissions).

Definition default_initial_prior : initial_prior_t :=
  let initial_mean := mean (row ord0 emissions) *: const_mx 1 in
  NIW_init E initial_mean 1 D_hid%:R (5 * scale_obs *: 1%:M).

Definition default_dynamics_prior : dynamics_prior_t :=
  let F_init : 'M[R]_(D_hid, D_hid) := D_hid%:R^-1 *: const_mx 1 in
  let B_init := 10^-1 *: jr_uniform key D_hid D_in in
  MNIW_init E (row_mx F_init B_init) 1%:M D_hid%:R 1%:M.

Definition default_emission_prior : emission_prior_t :=
  let H_init : 'M[R]_(D_obs, D_hid) := D_hid%:R^-1 *: const_mx 1 in
  let D_init := 10^-1 *: jr_uniform key D_obs D_in in
  MNIW_init E (row_mx H_init D_init) 1%:M D_obs%:R 1%:M.

Definition resolve_priors (priors : option priors_t)
  : initial_prior_t * dynamics_prior_t * emission_prior_t :=
  let: (initial_prior, dynamics_prior, emission_prior) :=
    match priors with
    | None => (None, None, None)
    | Some p => p
    end in
  (if initial_prior is Some p then p else default_initial_prior,
   if dynamics_prior is Some p then p else default_dynamics_prior,
   if emission_prior is Some p then p else default_emission_prior).

Variable initial_prior : initial_prior_t.
Variable dynamics_prior : dynamics_prior_t.
Variable emission_prior : emission_prior_t.

(** [log_prior_prob] *)
Definition log_prior_prob (params : params_t) : R :=
  let lp_init :=
    niw_log_prob initial_prior
      (initial_covariance params, initial_mean params) in
  let lp_dyn :=
    mniw_log_prob dynamics_prior
      (dynamics_covariance params,
       row_mx (dynamics_matrix params) (dynamics_input_weights params)) in
  let lp_ems :=
    mniw_log_prob emission_prior
      (emission_covariance params,
       row_mx (emission_matrix params) (emission_input_weights params)) in
  lp_init + lp_dyn + lp_ems.

(** [sufficient_stats_from_sample].  [a[:-1]] and [a[1:]] drop the last and
    the first row. *)
Definition sufficient_stats_from_sample (states : 'M[R]_(num_timesteps, D_hid))
  : ('rV[R]_D_hid * 'M[R]_D_hid * int)
    * ('M[R]_(D_hid + D_in) * 'M[R]_(D_hid + D_in, D_hid) * 'M[R]_D_hid * int)
    * ('M[R]_(D_hid + D_in) * 'M[R]_(D_hid + D_in, D_obs) * 'M[R]_D_obs * int)
  :=
  let x := states in
  let xp : 'M[R]_(T, D_hid) := row' ord_max states in
  let xn : 'M[R]_(T, D_hid) := row' ord0 states in
  let u := inputs in
  let up : 'M[R]_(T, D_in) := row' ord_max inputs in
  let y := emissions in
  let init_stats := (row ord0 x, outer (row ord0 x) (row ord0 x), 1%Z) in
  let sum_zpzpT := block_mx (xp^T *m xp) (xp^T *m up)
                            (up^T *m xp) (up^T *m up) in
  let sum_zpxnT := col_mx (xp^T *m xn) (up^T *m xn) in
  let sum_xnxnT := xn^T *m xn in
  let dynamics_stats :=
    (sum_zpzpT, sum_zpxnT, sum_xnxnT, (num_timesteps%:Z - 1)%R) in
  let sum_zzT := block_mx (x^T *m x) (x^T *m u) (u^T *m x) (u^T *m u) in
  let sum_zyT := col_mx (x^T *m y) (u^T *m y) in
  let sum_yyT := y^T *m y in
  let emission_stats := (sum_zzT, sum_zyT, sum_yyT, num_timesteps%:Z) in
  (init_stats, dynamics_stats, emission_stats).

(** [lgssm_params_sample]; [FB[:, :D_hid]] and [FB[:, D_hid:]] are the left
    and right column blocks. *)
Definition lgssm_params_sample (rng : PRNGKey E)
    (init_stats : 'rV[R]_D_hid * 'M[R]_D_hid * int)
    (dynamics_stats :
       'M[R]_(D_hid + D_in) * 'M[R]_(D_hid + D_in, D_hid) * 'M[R]_D_hid * int)
    (emission_stats :
       'M[R]_(D_hid + D_in) * 'M[R]_(D_hid + D_in, D_obs) * 'M[R]_D_obs * int)
  : params_t :=
  let rngs := jr_split rng 3 in
  let initial_posterior := niw_posterior_update initial_prior init_stats in
  let: (S_, m) := niw_sample initial_posterior (tnth rngs ord0) in
  let dynamics_posterior :=
    mniw_posterior_update dynamics_prior dynamics_stats in
  let: (Q, FB) := mniw_sample dynamics_posterior (tnth rngs (lift ord0 ord0)) in
  let: (F, B) := (lsubmx FB, rsubmx FB) in
  let emission_posterior :=
    mniw_posterior_update emission_prior emission_stats in
  let: (R_, HD) := mniw_sample emission_posterior (tnth rngs ord_max) in
  let: (H, D) := (lsubmx HD, rsubmx HD) in
  {| initial_mean := m;
     initial_covariance := S_;
     dynamics_matrix := F;
     dynamics_input_weights := B;
     dynamics_covariance := Q;
     emission_matrix := H;
     emission_input_weights := D;
     emission_covariance := R_ |}.

(** [one_sample]: one sweep, the body of the scan. *)
Definition one_sample (params : params_t) (rng : PRNGKey E)
  : params_t * (params_t * R) :=
  let rngs := jr_split rng 2 in
  let l_prior := log_prior_prob params in
  let: (ll, states) :=
    lgssm_posterior_sample (tnth rngs ord0) params emissions inputs in
  let: (init_stats, dynamics_stats, emission_stats) :=
    sufficient_stats_from_sample states in
  let params_new :=
    lgssm_params_sample (tnth rngs ord_max) init_stats dynamics_stats
                        emission_stats in
  let log_probs := l_prior + ll in
  (params_new, (params, log_probs)).

(** [params_0]: the parameters the scan starts from. *)
Definition params_0 : params_t :=
  let: (S_0, m_0) := niw_mode initial_prior in
  let: (Q_0, FB_0) := mniw_mode dynamics_prior in
  let: (F_0, B_0) := (lsubmx FB_0, rsubmx FB_0) in
  let: (R_0, HD_0) := mniw_mode emission_prior in
  let: (H_0, D_0) := (lsubmx HD_0, rsubmx HD_0) in
  {| initial_mean := m_0;
     initial_covariance := S_0;
     dynamics_matrix := F_0;
     dynamics_input_weights := B_0;
     dynamics_covariance := Q_0;
     emission_matrix := H_0;
     emission_input_weights := D_0;
     emission_covariance := R_0 |}.

(** The sampling loop: returns [(log_probs, samples_of_parameters)]. *)
Definition run_sweeps (sample_size : nat) : seq R * seq params_t :=
  let keys := jr_split key sample_size in
  let: (_, samples_and_log_probs) := scan one_sample params_0 keys in
  let: (samples_of_parameters, log_probs) :=
    (unzip1 samples_and_log_probs, unzip2 samples_and_log_probs) in
  (log_probs, samples_of_parameters).

End Sampler.

Section Entry.

Variable R : realFieldType.
Variable E : externals R.
Variables (T D_obs : nat).

(** An [inputs] argument: [None], or an array with [num_timesteps] rows. *)
Definition inputs_arg : Type := option {d : nat & 'M[R]_(T.+1, d)}.

(** [inputs = jnp.zeros((num_timesteps, 0))] when [inputs is None]. *)
Definition inputs_or_zeros (inputs : inputs_arg) : {d : nat & 'M[R]_(T.+1, d)} :=
  match inputs with
  | None => existT _ 0 (0 : 'M[R]_(T.+1, 0))
  | Some u => u
  end.

(** [D_in = inputs.shape[1]], after the replacement of [None]. *)
Definition D_in_of (inputs : inputs_arg) : nat :=
  shape1 (projT2 (inputs_or_zeros inputs)).

(** [blocked_gibbs(key, sample_size, emissions, D_hid, inputs, priors)] *)
Definition blocked_gibbs (key : PRNGKey E) (sample_size : nat)
    (emissions : 'M[R]_(T.+1, D_obs)) (D_hid : nat) (inputs : inputs_arg)
    (priors : option (priors_t E D_hid D_obs (D_in_of inputs)))
  : seq R * seq (LGSSMParams R D_hid D_obs (D_in_of inputs)) :=
  let inputs := projT2 (inputs_or_zeros inputs) in
  let: (initial_prior, dynamics_prior, emission_prior) :=
    resolve_priors key emissions priors in
  run_sweeps key emissions inputs initial_prior dynamics_prior emission_prior
             sample_size.

End Entry.

End BlockedGibbs.

(** A small implementation of the sampler's imports over the rationals, to
    run the sampler on: keys carry no state, every prior has mode [(0, 0)],
    and every draw from a prior or posterior returns the identity matrix
    with an all-ones mean or coefficient matrix. *)

Module BlockedGibbsData.

Import BlockedGibbs.

Definition constant_draws : externals rat :=
  {| PRNGKey := unit;
     jr_split := fun _ n => [tuple of nseq n tt];
     jr_uniform := fun _ m n => 0;
     jnp_std := fun T d _ => 0;
     NIW := fun _ => unit;
     NIW_init := fun d _ _ _ _ => tt;
     niw_log_prob := fun d _ _ => 0;
     niw_mode := fun d _ => (0, 0);
     niw_sample := fun d _ _ => (1%:M, const_mx 1);
     niw_posterior_update := fun d _ _ => tt;
     MNIW := fun _ _ => unit;
     MNIW_init := fun r c _ _ _ _ => tt;
     mniw_log_prob := fun r c _ _ => 0;
     mniw_mode := fun r c _ => (0, 0);
     mniw_sample := fun r c _ _ => (1%:M, const_mx 1);
     mniw_posterior_update := fun r c _ _ => tt;
     lgssm_posterior_sample := fun T D_hid D_obs D_in _ _ _ _ => (0, 0) |}.

(** Two time steps of a one-dimensional observation. *)
Definition two_steps : 'M[rat]_(2, 1) := 0.

End BlockedGibbsData.

(** * Properties *)

(** ** Linear algebra used by both models *)

Section ArrayFacts.

Variable R : realFieldType.

Lemma outerE m n (u : 'rV[R]_m) (v : 'rV[R]_n) i j :
  outer u v i j = u 0 i * v 0 j.
Proof. by rewrite /outer mxE big_ord1 mxE. Qed.

Lemma row_scaled_sumE T d (w : 'I_T -> R) (a : 'M[R]_(T, d)) j :
  (\sum_t w t *: row t a) 0 j = \sum_t w t * a t j.
Proof. by rewrite summxE; apply: eq_bigr => t _; rewrite !mxE. Qed.

Lemma outer_scaled_sumE T d e (w : 'I_T -> R) (a : 'M[R]_(T, d))
    (b : 'M[R]_(T, e)) i j :
  (\sum_t w t *: outer (row t a) (row t b)) i j = \sum_t w t * a t i * b t j.
Proof.
rewrite summxE; apply: eq_bigr => t _.
by rewrite mxE outerE !mxE mulrA.
Qed.

(** A weighted Gram matrix [A^T diag(d) B], entry by entry. *)
Lemma tr_diag_mulE T d e (w : 'rV[R]_T) (a : 'M[R]_(T, d))
    (b : 'M[R]_(T, e)) i j :
  (a^T *m diag_mx w *m b) i j = \sum_t w 0 t * a t i * b t j.
Proof.
rewrite mxE; apply: eq_bigr => t _.
by rewrite mul_mx_diag !mxE [a t i * _]mulrC.
Qed.

Lemma symmetric_tr_diag_mul T d (w : 'rV[R]_T) (a : 'M[R]_(T, d)) :
  symmetric (a^T *m diag_mx w *m a).
Proof. by rewrite /symmetric !trmx_mul tr_diag_mx trmxK mulmxA. Qed.

(** The quadratic form of [diag(d)] with non-negative [d] is non-negative. *)
Lemma quad_diag_ge0 T (w : 'rV[R]_T) (u : 'rV[R]_T) :
  (forall t, 0 <= w 0 t) -> 0 <= (u *m diag_mx w *m u^T) 0 0.
Proof.
move=> w_ge0; rewrite mxE; apply: sumr_ge0 => t _.
by rewrite mul_mx_diag !mxE mulrAC mulr_ge0 ?w_ge0 // -expr2 sqr_ge0.
Qed.

Lemma psd_tr_diag_mul T d (w : 'rV[R]_T) (a : 'M[R]_(T, d)) :
  (forall t, 0 <= w 0 t) -> psd (a^T *m diag_mx w *m a).
Proof.
move=> w_ge0 v.
have -> : v *m (a^T *m diag_mx w *m a) *m v^T
          = (v *m a^T) *m diag_mx w *m (v *m a^T)^T.
  by rewrite trmx_mul trmxK !mulmxA.
exact: quad_diag_ge0.
Qed.

(** Gram matrices [A^T A] are symmetric and positive semi-definite. *)
Lemma symmetric_gram T d (a : 'M[R]_(T, d)) : symmetric (a^T *m a).
Proof. by rewrite /symmetric trmx_mul trmxK. Qed.

Lemma psd_gram T d (a : 'M[R]_(T, d)) : psd (a^T *m a).
Proof.
move=> v.
have -> : v *m (a^T *m a) *m v^T = (v *m a^T) *m (v *m a^T)^T.
  by rewrite trmx_mul trmxK !mulmxA.
set u := v *m a^T; rewrite mxE; apply: sumr_ge0 => t _.
by rewrite [u^T _ _]mxE -expr2 sqr_ge0.
Qed.



Lemma symmetrize_id n (S : 'M[R]_n) : symmetric S -> 2^-1 *: (S + S^T) = S.
Proof.
move=> ->; rewrite -mulr2n -scaler_nat scalerA mulVf ?scale1r //.
by rewrite pnatr_eq0.
Qed.

Lemma solveK n p (A : 'M[R]_n) (B : 'M[R]_(n, p)) :
  A \in unitmx -> A *m solve A B = B.
Proof. by move=> unitA; rewrite /solve mulKVmx. Qed.


End ArrayFacts.

(** Weighted least squares.  With design matrix [Z], targets [Y] and weights
    [w], let [G = Z^T diag(w) Z], [tgt = Z^T diag(w) Y] and
    [Ab = (solve G tgt)^T].  Then [Y^T diag(w) Y - Ab tgt] is the weighted
    second moment of the residuals [Y - Z Ab^T]. *)
Section WeightedLeastSquares.

Variable R : realFieldType.
Variables (T p e : nat).
Variables (w : 'rV[R]_T) (Z : 'M[R]_(T, p)) (Y : 'M[R]_(T, e)).

Let D := diag_mx w.
Let G := Z^T *m D *m Z.
Let tgt := Z^T *m D *m Y.
Let Ab := (solve G tgt)^T.

Lemma wls_gram_symmetric : G^T = G.
Proof. exact: symmetric_tr_diag_mul. Qed.

Lemma wls_cross_symmetric : G \in unitmx -> (Ab *m tgt)^T = Ab *m tgt.
Proof.
move=> unitG.
rewrite trmx_mul /Ab /solve trmxK [in RHS]trmx_mul trmx_inv.
by rewrite wls_gram_symmetric mulmxA.
Qed.

Lemma wls_residual :
  G \in unitmx ->
  Y^T *m D *m Y - Ab *m tgt
  = (Y - Z *m Ab^T)^T *m D *m (Y - Z *m Ab^T).
Proof.
move=> unitG.
have AbG : Ab *m G *m Ab^T = Ab *m tgt.
  by rewrite -mulmxA /Ab trmxK solveK.
have tgtT : Y^T *m D *m Z = tgt^T.
  by rewrite /tgt !trmx_mul trmxK tr_diag_mx mulmxA.
have ET : (Y - Z *m Ab^T)^T = Y^T - Ab *m Z^T.
  by rewrite [LHS]linearB /= trmx_mul trmxK.
have t2 : Y^T *m D *m (Z *m Ab^T) = Ab *m tgt.
  by rewrite mulmxA tgtT -trmx_mul wls_cross_symmetric.
have t3 : Ab *m Z^T *m D *m Y = Ab *m tgt by rewrite /tgt !mulmxA.
have t4 : Ab *m Z^T *m D *m (Z *m Ab^T) = Ab *m tgt.
  by rewrite -AbG /G !mulmxA.
by rewrite ET !mulmxBl !mulmxBr t2 t3 t4 subrr subr0.
Qed.

End WeightedLeastSquares.

(** ** The EM step of the linear-regression HMM *)

Module LinearRegressionHMMProps.

Import LinearRegressionHMM.

Section EStep.

Variable R : realFieldType.
Variables (K Dc De T : nat) (Base : Type).
Variable params : hmm_params R K Dc De Base.
Variable emissions : 'M[R]_(T, De).
Variable expected_states : 'M[R]_(T, K).
Variable covariates : 'M[R]_(T, Dc).

Let stats :=
  _compute_expected_suff_stats params emissions expected_states covariates.

(** C8: the expected sufficient statistics are the weighted sums over time
    of the weights, of the covariate and emission vectors, and of their
    outer products. *)
Theorem compute_expected_suff_stats_weighted_sums (k : 'I_K) :
  [/\ sum_w stats 0 k = \sum_t expected_states t k,
      row k (sum_x stats) = \sum_t expected_states t k *: row t covariates,
      row k (sum_y stats) = \sum_t expected_states t k *: row t emissions
    & [/\ sum_xxT stats k
          = \sum_t expected_states t k
                   *: outer (row t covariates) (row t covariates),
          sum_xyT stats k
          = \sum_t expected_states t k
                   *: outer (row t covariates) (row t emissions)
        & sum_yyT stats k
          = \sum_t expected_states t k
                   *: outer (row t emissions) (row t emissions)]].
Proof.
split; first by rewrite /stats /= mxE.
- by apply/rowP=> i; rewrite row_scaled_sumE !mxE.
- by apply/rowP=> i; rewrite row_scaled_sumE !mxE.
split; apply/matrixP=> i j; by rewrite outer_scaled_sumE /= ffunE mxE.
Qed.

(** The same statistics in matrix form, with the weights of state [k] on a
    diagonal. *)
Let wk (k : 'I_K) : 'rV[R]_T := (col k expected_states)^T.
Let ones : 'cV[R]_T := const_mx 1.

Lemma sum_xxT_diag k :
  sum_xxT stats k = covariates^T *m diag_mx (wk k) *m covariates.
Proof.
apply/matrixP=> i j; rewrite tr_diag_mulE /= ffunE mxE.
by apply: eq_bigr => t _; rewrite !mxE.
Qed.

Lemma sum_xyT_diag k :
  sum_xyT stats k = covariates^T *m diag_mx (wk k) *m emissions.
Proof.
apply/matrixP=> i j; rewrite tr_diag_mulE /= ffunE mxE.
by apply: eq_bigr => t _; rewrite !mxE.
Qed.

Lemma sum_yyT_diag k :
  sum_yyT stats k = emissions^T *m diag_mx (wk k) *m emissions.
Proof.
apply/matrixP=> i j; rewrite tr_diag_mulE /= ffunE mxE.
by apply: eq_bigr => t _; rewrite !mxE.
Qed.

Lemma sum_x_diag k :
  row k (sum_x stats) = ones^T *m diag_mx (wk k) *m covariates.
Proof.
apply/rowP=> i; rewrite tr_diag_mulE !mxE.
by apply: eq_bigr => t _; rewrite !mxE mulr1.
Qed.

Lemma sum_y_diag k :
  row k (sum_y stats) = ones^T *m diag_mx (wk k) *m emissions.
Proof.
apply/rowP=> i; rewrite tr_diag_mulE !mxE.
by apply: eq_bigr => t _; rewrite !mxE mulr1.
Qed.

Lemma sum_xT_diag k :
  (row k (sum_x stats))^T = covariates^T *m diag_mx (wk k) *m ones.
Proof.
by rewrite sum_x_diag !trmx_mul trmxK tr_diag_mx mulmxA.
Qed.

Lemma sum_w_diag k :
  (sum_w stats 0 k)%:M = ones^T *m diag_mx (wk k) *m ones.
Proof.
apply/matrixP=> i j; rewrite tr_diag_mulE !ord1 !mxE eqxx mulr1n.
by apply: eq_bigr => t _; rewrite !mxE !mulr1.
Qed.

(** The block Gram matrix and the stacked target of the M-step, for
    statistics that were accumulated from data: the design matrix is the
    covariates with a column of ones appended. *)
Lemma sum_x1x1T_diag k :
  sum_x1x1T (stats_at stats k)
  = (row_mx covariates ones)^T *m diag_mx (wk k) *m row_mx covariates ones.
Proof.
rewrite tr_row_mx mul_col_mx mul_col_row /sum_x1x1T /=.
by rewrite sum_xxT_diag sum_xT_diag sum_x_diag sum_w_diag.
Qed.

Lemma sum_x1yT_diag k :
  sum_x1yT (stats_at stats k)
  = (row_mx covariates ones)^T *m diag_mx (wk k) *m emissions.
Proof.
by rewrite tr_row_mx !mul_col_mx /sum_x1yT /= sum_xyT_diag sum_y_diag.
Qed.


End EStep.

Section MStep.

Variable R : realFieldType.
Variables (K Dc De : nat) (Base Props : Type).
Variable params : hmm_params R K Dc De Base.
Variable param_props : Props.

Lemma m_step_weightsE (stats : suff_stats R K Dc De) k :
  weights (emissions (_m_step_emissions params param_props stats)) k
  = lsubmx (Ab_of (stats_at stats k)).
Proof. by rewrite /= ffunE. Qed.

Lemma m_step_biasesE (stats : suff_stats R K Dc De) k :
  row k (biases (emissions (_m_step_emissions params param_props stats)))
  = (rsubmx (Ab_of (stats_at stats k)))^T.
Proof. by rewrite /= rowK. Qed.

Lemma m_step_covsE (stats : suff_stats R K Dc De) k :
  covs (emissions (_m_step_emissions params param_props stats)) k
  = 2^-1 *: (Sigma_of (stats_at stats k) + (Sigma_of (stats_at stats k))^T).
Proof. by rewrite /= ffunE. Qed.



End MStep.

Section Initialize.

Variable R : realFieldType.
Variables (K Dc De : nat).
Variable E : hmm_externals R K.
Variable key : PRNGKey E.
Variable initial_probs : option 'rV[R]_K.
Variable transition_matrix : option 'M[R]_K.


(** The method name is compared in lower case: any spelling of ["kmeans"]
    selects the clustering initialisation, and a name that is neither
    ["kmeans"] nor ["prior"] in lower case raises. *)
Lemma initialize_kmeans_any_case (method : string)
    (ems : {N : nat & 'M[R]_(N, De)}) :
  lower method = "kmeans"%string ->
  let base := super_initialize (tnth (jr_split key 2) ord0) method
                               initial_probs transition_matrix in
  initialize (covariate_dim := Dc) key method initial_probs transition_matrix
             None None None (Some ems)
  = Return
      (HmmParams base.1
         (EmissionParams [ffun=> 0] (KMeans_cluster_centers E K (projT2 ems))
                         [ffun=> 1%:M]),
       HmmProps base.2 (initial_emission_props E)).
Proof.
by move=> low; rewrite /initialize low /=; case: (super_initialize _ _ _ _).
Qed.

Lemma initialize_invalid_method (method : string) emission_weights
    emission_biases emission_covariances
    (emissions : option {N : nat & 'M[R]_(N, De)}) :
  String.eqb (lower method) "kmeans" = false ->
  String.eqb (lower method) "prior" = false ->
  initialize (covariate_dim := Dc) key method initial_probs transition_matrix
             emission_weights emission_biases emission_covariances emissions
  = Exception ("Invalid initialization method: " ++ method).
Proof.
by move=> nk np; rewrite /initialize nk np; case: (super_initialize _ _ _ _).
Qed.

End Initialize.

End LinearRegressionHMMProps.
Module LinearRegressionHMMExamples.

Import LinearRegressionHMM LinearRegressionHMMProps LinearRegressionHMMData.







Lemma initialize_KMeans_accepted :
  initialize (E := plain_externals) (covariate_dim := 1) (emission_dim := 1)
             tt "KMeans" None None None None None
             (Some (existT (fun N => 'M[rat]_(N, 1)) 2%N two_emissions))
  = Return
      (HmmParams tt (EmissionParams [ffun=> 0] 0 [ffun=> 1%:M]),
       HmmProps (E := plain_externals) tt
                (initial_emission_props plain_externals)).
Proof. by []. Qed.

End LinearRegressionHMMExamples.
(** ** More on the EM step: accumulation, rescaling, exact fits *)

Module LinearRegressionHMMMore.

Import LinearRegressionHMM LinearRegressionHMMProps LinearRegressionHMMData.

Section Accumulation.

Variable R : realFieldType.
Variables (K Dc De : nat) (Base : Type).
Variable params : hmm_params R K Dc De Base.

(** The statistics of two sequences laid end to end are the sums of the
    statistics of the two sequences. *)
Theorem compute_expected_suff_stats_concat (T1 T2 : nat)
    (ems1 : 'M[R]_(T1, De)) (ems2 : 'M[R]_(T2, De))
    (es1 : 'M[R]_(T1, K)) (es2 : 'M[R]_(T2, K))
    (cov1 : 'M[R]_(T1, Dc)) (cov2 : 'M[R]_(T2, Dc)) :
  let s1 := _compute_expected_suff_stats params ems1 es1 cov1 in
  let s2 := _compute_expected_suff_stats params ems2 es2 cov2 in
  let s := _compute_expected_suff_stats params (col_mx ems1 ems2)
                                        (col_mx es1 es2) (col_mx cov1 cov2) in
  [/\ sum_w s = sum_w s1 + sum_w s2,
      sum_x s = sum_x s1 + sum_x s2,
      sum_y s = sum_y s1 + sum_y s2
    & forall k,
      [/\ sum_xxT s k = sum_xxT s1 k + sum_xxT s2 k,
          sum_xyT s k = sum_xyT s1 k + sum_xyT s2 k
        & sum_yyT s k = sum_yyT s1 k + sum_yyT s2 k]].
Proof.
move=> s1 s2 s.
have split_sum (F : 'I_(T1 + T2) -> R) :
    \sum_t F t = \sum_t F (lshift T2 t) + \sum_t F (rshift T1 t).
  by rewrite big_split_ord.
split.
- apply/rowP=> k; rewrite !mxE split_sum; congr (_ + _);
    by apply: eq_bigr => t _; rewrite ?col_mxEu ?col_mxEd.
- apply/matrixP=> k i; rewrite !mxE split_sum; congr (_ + _);
    by apply: eq_bigr => t _; rewrite ?col_mxEu ?col_mxEd.
- apply/matrixP=> k i; rewrite !mxE split_sum; congr (_ + _);
    by apply: eq_bigr => t _; rewrite ?col_mxEu ?col_mxEd.
move=> k; split; apply/matrixP=> i j; rewrite /= !ffunE !mxE split_sum;
  congr (_ + _); by apply: eq_bigr => t _; rewrite ?col_mxEu ?col_mxEd.
Qed.

(** An empty sequence, or all-zero weights, give the zero statistics of
    [_zeros_like_suff_stats]. *)
Theorem compute_expected_suff_stats_zero (T : nat)
    (ems0 : 'M[R]_(0, De)) (es0 : 'M[R]_(0, K)) (cov0 : 'M[R]_(0, Dc))
    (ems : 'M[R]_(T, De)) (cov : 'M[R]_(T, Dc)) :
  _compute_expected_suff_stats params ems0 es0 cov0
  = _zeros_like_suff_stats R K Dc De
  /\ _compute_expected_suff_stats params ems 0 cov
     = _zeros_like_suff_stats R K Dc De.
Proof.
rewrite /_compute_expected_suff_stats /_zeros_like_suff_stats.
split; congr SuffStats.
- by apply/rowP=> k; rewrite !mxE big_ord0.
- by apply/matrixP=> k i; rewrite !mxE big_ord0.
- by apply/matrixP=> k i; rewrite !mxE big_ord0.
- by apply/ffunP=> k; apply/matrixP=> i j; rewrite !ffunE !mxE big_ord0.
- by apply/ffunP=> k; apply/matrixP=> i j; rewrite !ffunE !mxE big_ord0.
- by apply/ffunP=> k; apply/matrixP=> i j; rewrite !ffunE !mxE big_ord0.
- by apply/rowP=> k; rewrite !mxE big1 // => t _; rewrite mxE.
- by apply/matrixP=> k i; rewrite !mxE big1 // => t _; rewrite mxE mul0r.
- by apply/matrixP=> k i; rewrite !mxE big1 // => t _; rewrite mxE mul0r.
- apply/ffunP=> k; apply/matrixP=> i j; rewrite !ffunE !mxE big1 // => t _.
  by rewrite mxE !mul0r.
- apply/ffunP=> k; apply/matrixP=> i j; rewrite !ffunE !mxE big1 // => t _.
  by rewrite mxE !mul0r.
- apply/ffunP=> k; apply/matrixP=> i j; rewrite !ffunE !mxE big1 // => t _.
  by rewrite mxE !mul0r.
Qed.

End Accumulation.

Section Rescaling.

Variable R : realFieldType.
Variables (K Dc De : nat).

Section ScaledSlice.

Variables (c : R) (st : state_stats R Dc De).
Hypothesis c_neq0 : c != 0.
Hypothesis unitG : sum_x1x1T st \in unitmx.

Let st' : state_stats R Dc De :=
  StateStats (c * s_w st) (c *: s_x st) (c *: s_y st) (c *: s_xxT st)
             (c *: s_xyT st) (c *: s_yyT st).

Lemma sum_x1x1T_scale : sum_x1x1T st' = c *: sum_x1x1T st.
Proof.
by rewrite /sum_x1x1T /= scale_block_mx linearZ /= scale_scalar_mx.
Qed.

Lemma sum_x1yT_scale : sum_x1yT st' = c *: sum_x1yT st.
Proof. by rewrite /sum_x1yT /= scale_col_mx. Qed.

Lemma Ab_of_scale : Ab_of st' = Ab_of st.
Proof.
have unitcG : c *: sum_x1x1T st \in unitmx by rewrite unitmxZ ?unitfE.
rewrite /Ab_of sum_x1x1T_scale sum_x1yT_scale /solve invmxZ //.
by rewrite -scalemxAl -scalemxAr scalerA mulVf // scale1r.
Qed.

Lemma Sigma_of_scale : Sigma_of st' = Sigma_of st.
Proof.
rewrite /Sigma_of Ab_of_scale sum_x1yT_scale [s_w st']/= [s_yyT st']/=.
rewrite -scalemxAr -scalerBr scalerA.
by rewrite !div1r invfM mulrAC mulVf // mul1r.
Qed.

End ScaledSlice.

Variables (Base Props : Type).
Variable params : hmm_params R K Dc De Base.
Variable param_props : Props.

Lemma m_step_emissions_congr (stats stats' : suff_stats R K Dc De) k :
  Ab_of (stats_at stats' k) = Ab_of (stats_at stats k) ->
  Sigma_of (stats_at stats' k) = Sigma_of (stats_at stats k) ->
  let fit := emissions (_m_step_emissions params param_props stats) in
  let fit' := emissions (_m_step_emissions params param_props stats') in
  [/\ weights fit' k = weights fit k,
      row k (biases fit') = row k (biases fit)
    & covs fit' k = covs fit k].
Proof.
move=> AbE SigmaE fit fit'.
by rewrite /fit /fit' !m_step_weightsE !m_step_biasesE !m_step_covsE AbE
           SigmaE.
Qed.

(** The M-step does not see a rescaling of the weights: with every weight
    multiplied by the same non-zero factor it returns the same slope,
    intercept and covariance, for every state whose block Gram matrix is
    invertible. *)
Theorem m_step_emissions_weight_scale (T : nat) (ems : 'M[R]_(T, De))
    (expected_states : 'M[R]_(T, K)) (covariates : 'M[R]_(T, Dc))
    (c : R) (k : 'I_K) :
  let stats := _compute_expected_suff_stats params ems expected_states
                                            covariates in
  let stats' := _compute_expected_suff_stats params ems
                                             (c *: expected_states)
                                             covariates in
  let fit := emissions (_m_step_emissions params param_props stats) in
  let fit' := emissions (_m_step_emissions params param_props stats') in
  c != 0 -> sum_x1x1T (stats_at stats k) \in unitmx ->
  [/\ weights fit' k = weights fit k,
      row k (biases fit') = row k (biases fit)
    & covs fit' k = covs fit k].
Proof.
move=> stats stats' fit fit' c_neq0 unitG.
have stE : stats_at stats' k
  = StateStats (c * s_w (stats_at stats k)) (c *: s_x (stats_at stats k))
               (c *: s_y (stats_at stats k)) (c *: s_xxT (stats_at stats k))
               (c *: s_xyT (stats_at stats k)) (c *: s_yyT (stats_at stats k)).
  rewrite /stats_at /=; congr StateStats.
  - by rewrite !mxE mulr_sumr; apply: eq_bigr => t _; rewrite mxE.
  - apply/rowP=> i; rewrite !mxE mulr_sumr; apply: eq_bigr => t _.
    by rewrite mxE mulrA.
  - apply/rowP=> i; rewrite !mxE mulr_sumr; apply: eq_bigr => t _.
    by rewrite mxE mulrA.
  - apply/matrixP=> i j; rewrite !ffunE !mxE mulr_sumr; apply: eq_bigr => t _.
    by rewrite mxE !mulrA.
  - apply/matrixP=> i j; rewrite !ffunE !mxE mulr_sumr; apply: eq_bigr => t _.
    by rewrite mxE !mulrA.
  - apply/matrixP=> i j; rewrite !ffunE !mxE mulr_sumr; apply: eq_bigr => t _.
    by rewrite mxE !mulrA.
have AbE : Ab_of (stats_at stats' k) = Ab_of (stats_at stats k).
  by rewrite stE; apply: Ab_of_scale.
have SigmaE : Sigma_of (stats_at stats' k) = Sigma_of (stats_at stats k).
  by rewrite stE; apply: Sigma_of_scale.
exact: m_step_emissions_congr AbE SigmaE.
Qed.

End Rescaling.

Section LeastSquares.

Variable R : realFieldType.
Variables (T p e : nat).
Variables (w : 'rV[R]_T) (Z : 'M[R]_(T, p)) (Y : 'M[R]_(T, e)).

Local Notation D := (diag_mx w).
Local Notation G := (Z^T *m D *m Z).
Local Notation tgt := (Z^T *m D *m Y).
Local Notation Ab := ((solve G tgt)^T).

Lemma tr_diag_form (q r : nat) (A : 'M[R]_(T, q)) (B : 'M[R]_(T, r)) :
  (A^T *m D *m B)^T = B^T *m D *m A.
Proof. by rewrite !trmx_mul trmxK tr_diag_mx mulmxA. Qed.

Lemma diag_form_sub (r : nat) (A B : 'M[R]_(T, r)) :
  A^T *m D *m B = 0 -> B^T *m D *m A = 0 ->
  (A - B)^T *m D *m (A - B) - A^T *m D *m A = B^T *m D *m B.
Proof.
move=> AB0 BA0; rewrite [(A - B)^T]linearB /= !(mulmxBl, mulmxBr) AB0 BA0.
by rewrite subr0 sub0r opprK addrC addKr.
Qed.

(** The residuals of the fit are orthogonal to the design matrix. *)
Lemma wls_orthogonal : G \in unitmx -> Z^T *m D *m (Y - Z *m Ab^T) = 0.
Proof.
by move=> unitG; rewrite mulmxBr mulmxA trmxK solveK // subrr.
Qed.

(** Any other coefficient matrix adds the weighted second moment of the
    difference of the predictions to the residual moment of the fit. *)
Lemma wls_excess (C : 'M[R]_(e, p)) :
  G \in unitmx ->
  (Y - Z *m C^T)^T *m D *m (Y - Z *m C^T)
  - (Y - Z *m Ab^T)^T *m D *m (Y - Z *m Ab^T)
  = (Z *m (C - Ab)^T)^T *m D *m (Z *m (C - Ab)^T).
Proof.
move=> unitG; set E := Y - Z *m Ab^T; set F := Z *m (C - Ab)^T.
have YC : Y - Z *m C^T = E - F.
  rewrite /E /F [(C - _)^T]linearB /= mulmxBr opprB addrA subrK.
  by [].
have orth : Z^T *m D *m E = 0 by exact: wls_orthogonal.
have FDE : F^T *m D *m E = 0.
  have -> : F^T *m D *m E = (C - Ab) *m (Z^T *m D *m E).
    by rewrite /F trmx_mul trmxK !mulmxA.
  by rewrite orth mulmx0.
have EDF : E^T *m D *m F = 0.
  by rewrite -tr_diag_form FDE trmx0.
by rewrite YC; apply: diag_form_sub.
Qed.

End LeastSquares.

Section Fit.

Variable R : realFieldType.
Variables (K Dc De T : nat) (Base Props : Type).
Variable params : hmm_params R K Dc De Base.
Variable param_props : Props.
Variable ems : 'M[R]_(T, De).
Variable expected_states : 'M[R]_(T, K).
Variable covariates : 'M[R]_(T, Dc).
Variable k : 'I_K.

Local Notation stats :=
  (_compute_expected_suff_stats params ems expected_states covariates).
Local Notation fit :=
  (emissions (_m_step_emissions params param_props stats)).
Local Notation X1 := (row_mx covariates (const_mx 1 : 'cV[R]_T)).
Local Notation wk := ((col k expected_states)^T).

Lemma row_design t :
  row t X1 = row_mx (row t covariates) 1.
Proof.
rewrite row_row_mx row_const; congr row_mx.
by apply/matrixP=> i j; rewrite !ord1 !mxE.
Qed.

Lemma residual_momentE (C : 'M[R]_(De, Dc + 1)) :
  residual_moment ems expected_states covariates k C
  = (ems - X1 *m C^T)^T *m diag_mx wk *m (ems - X1 *m C^T).
Proof.
apply/matrixP=> i j; rewrite tr_diag_mulE /residual_moment summxE.
apply: eq_bigr => t _.
rewrite mxE outerE -row_design -row_mul -[row t ems - _]linearB.
by rewrite /= !mxE mulrA.
Qed.

(** The coefficient matrix [[W | b]] the M-step returns for state [k]. *)
Lemma fit_coefficients :
  row_mx (weights fit k) (row k (biases fit))^T = Ab_of (stats_at stats k).
Proof. by rewrite m_step_weightsE m_step_biasesE trmxK hsubmxK. Qed.

(** The covariance the M-step returns is the weighted second moment of the
    residuals of the returned slope and intercept, divided by the total
    weight. *)
Theorem m_step_emissions_covariance_residual :
  sum_x1x1T (stats_at stats k) \in unitmx ->
  covs fit k
  = (1 / sum_w stats 0 k)
    *: residual_moment ems expected_states covariates k
         (row_mx (weights fit k) (row k (biases fit))^T).
Proof.
move=> unitG; rewrite fit_coefficients residual_momentE m_step_covsE.
have SigmaE : Sigma_of (stats_at stats k)
  = (1 / sum_w stats 0 k)
    *: ((ems - X1 *m (Ab_of (stats_at stats k))^T)^T *m diag_mx wk
        *m (ems - X1 *m (Ab_of (stats_at stats k))^T)).
  rewrite /Sigma_of /Ab_of -[s_yyT _]/(sum_yyT stats k).
  rewrite -[s_w _]/(sum_w stats 0 k).
  rewrite (sum_yyT_diag params ems expected_states covariates k).
  move: unitG; rewrite sum_x1x1T_diag sum_x1yT_diag => unitG.
  by rewrite wls_residual.
rewrite symmetrize_id // SigmaE.
by rewrite /symmetric linearZ /= symmetric_tr_diag_mul.
Qed.

(** The M-step is the weighted least-squares fit: for non-negative weights
    no coefficient matrix has a smaller residual second moment than the
    returned one, in the positive semi-definite order. *)
Theorem m_step_emissions_least_squares (C : 'M[R]_(De, Dc + 1)) :
  (forall t, 0 <= expected_states t k) ->
  sum_x1x1T (stats_at stats k) \in unitmx ->
  psd (residual_moment ems expected_states covariates k C
       - residual_moment ems expected_states covariates k
           (row_mx (weights fit k) (row k (biases fit))^T)).
Proof.
move=> es_ge0; rewrite fit_coefficients !residual_momentE /Ab_of.
rewrite sum_x1x1T_diag sum_x1yT_diag => unitG.
rewrite wls_excess //; apply: psd_tr_diag_mul => t.
by rewrite !mxE.
Qed.

End Fit.

Section ExactFit.

Variable R : realFieldType.
Variables (K Dc De T : nat) (Base Props : Type).
Variable params : hmm_params R K Dc De Base.
Variable param_props : Props.
Variable expected_states : 'M[R]_(T, K).
Variable covariates : 'M[R]_(T, Dc).
Variable k : 'I_K.

(** Emissions that follow a linear law exactly: [y_t = W x_t + b]. *)
Variables (W : 'M[R]_(De, Dc)) (b : 'rV[R]_De).

Local Notation ems := (covariates *m W^T + (const_mx 1 : 'cV[R]_T) *m b).
Local Notation stats :=
  (_compute_expected_suff_stats params ems expected_states covariates).
Local Notation fit_params := (_m_step_emissions params param_props stats).
Local Notation X1 := (row_mx covariates (const_mx 1 : 'cV[R]_T)).

Lemma exact_emissions : ems = X1 *m (row_mx W b^T)^T.
Proof. by rewrite tr_row_mx trmxK mul_row_col. Qed.

Lemma exact_Ab :
  sum_x1x1T (stats_at stats k) \in unitmx ->
  Ab_of (stats_at stats k) = row_mx W b^T.
Proof.
rewrite /Ab_of sum_x1x1T_diag sum_x1yT_diag => unitG.
by rewrite exact_emissions mulmxA /solve mulKmx // trmxK.
Qed.

(** On data that follow [y_t = W x_t + b] exactly the M-step returns [W],
    [b] and a zero covariance, and the fitted emission distribution
    predicts every emission from its covariates. *)
Theorem m_step_emissions_exact_fit :
  sum_x1x1T (stats_at stats k) \in unitmx ->
  [/\ weights (emissions fit_params) k = W,
      row k (biases (emissions fit_params)) = b,
      covs (emissions fit_params) k = 0
    & forall t,
        loc (emission_distribution fit_params k (row t covariates))
        = row t ems].
Proof.
move=> unitG.
have WE : weights (emissions fit_params) k = W.
  by rewrite m_step_weightsE exact_Ab // row_mxKl.
have bE : row k (biases (emissions fit_params)) = b.
  by rewrite m_step_biasesE exact_Ab // row_mxKr trmxK.
split=> //.
- rewrite m_step_emissions_covariance_residual // WE bE residual_momentE.
  by rewrite -exact_emissions subrr mulmx0 scaler0.
- move=> t; rewrite /emission_distribution [loc _]/= WE bE.
  rewrite [row t ems]linearD /= !row_mul row_const; congr (_ + _).
  have -> : const_mx 1 = 1%:M :> 'M[R]_1.
    by apply/matrixP=> i j; rewrite !ord1 !mxE.
  by rewrite mul1mx.
Qed.

End ExactFit.

Section InitializeEdges.

Variable R : realFieldType.
Variables (K Dc De : nat).
Variable E : hmm_externals R K.
Variable key : PRNGKey E.
Variable initial_probs : option 'rV[R]_K.
Variable transition_matrix : option 'M[R]_K.

(** Emission parameters the caller supplies are returned as they are, for
    method ["prior"] and for method ["kmeans"] with emissions: no random
    draw and no cluster centre enters the emission parameters. *)
Theorem initialize_keeps_supplied_parameters
    (W : {ffun 'I_K -> 'M[R]_(De, Dc)}) (b : 'M[R]_(K, De))
    (S : {ffun 'I_K -> 'M[R]_De})
    (emissions : option {N : nat & 'M[R]_(N, De)})
    (ems : {N : nat & 'M[R]_(N, De)}) :
  let base_of := fun method =>
    super_initialize (tnth (jr_split key 2) ord0) method initial_probs
                     transition_matrix in
  initialize key "prior" initial_probs transition_matrix (Some W) (Some b)
             (Some S) emissions
  = Return (HmmParams (base_of "prior"%string).1 (EmissionParams W b S),
            HmmProps (base_of "prior"%string).2 (initial_emission_props E))
  /\ initialize key "kmeans" initial_probs transition_matrix (Some W) (Some b)
                (Some S) (Some ems)
     = Return (HmmParams (base_of "kmeans"%string).1 (EmissionParams W b S),
               HmmProps (base_of "kmeans"%string).2
                        (initial_emission_props E)).
Proof.
by rewrite /initialize /=; split; case: (super_initialize _ _ _ _).
Qed.

(** Method ["kmeans"], in any capitalisation, fails its assertion when no
    emissions are passed, also when the caller supplies every emission
    parameter. *)
Theorem initialize_kmeans_needs_emissions (method : string)
    emission_weights emission_biases emission_covariances :
  lower method = "kmeans"%string ->
  initialize (covariate_dim := Dc) (emission_dim := De) key method
             initial_probs transition_matrix emission_weights emission_biases
             emission_covariances None
  = AssertionError "Need emissions to initialize the model with K-Means!".
Proof.
by move=> low; rewrite /initialize low /=; case: (super_initialize _ _ _ _).
Qed.

(** A method that is neither ["kmeans"] nor ["prior"] once in lower case
    raises, and the message quotes the method as it was passed. *)
Theorem initialize_rejects_other_methods (method : string)
    emission_weights emission_biases emission_covariances
    (emissions : option {N : nat & 'M[R]_(N, De)}) :
  String.eqb (lower method) "kmeans" = false ->
  String.eqb (lower method) "prior" = false ->
  initialize (covariate_dim := Dc) key method initial_probs transition_matrix
             emission_weights emission_biases emission_covariances emissions
  = Exception ("Invalid initialization method: " ++ method).
Proof.
by move=> nk np; rewrite /initialize nk np; case: (super_initialize _ _ _ _).
Qed.

End InitializeEdges.

(** *** Instances *)

Lemma gram_two_data (ems : 'M[rat]_(2, 1)) :
  sum_x1x1T (stats_at (_compute_expected_suff_stats unit_params ems
                         two_weights two_covariates) ord0) = 1%:M.
Proof.
set stats := _compute_expected_suff_stats _ _ _ _.
have sxx : sum_xxT stats ord0 = 1%:M.
  apply/matrixP=> i j; rewrite /= ffunE !mxE !ord1 /=.
  by rewrite !big_ord_recl big_ord0 !mxE /=.
have sx : row ord0 (sum_x stats) = 0.
  by apply/rowP=> j; rewrite !mxE !big_ord_recl big_ord0 !mxE /=.
have sw : sum_w stats 0 ord0 = 1.
  by rewrite /= mxE !big_ord_recl big_ord0 !mxE.
rewrite /sum_x1x1T -[s_xxT _]/(sum_xxT stats ord0).
rewrite -[s_x _]/(row ord0 (sum_x stats)) -[s_w _]/(sum_w stats 0 ord0).
by rewrite sxx sx sw trmx0 -scalar_mx_block.
Qed.

Lemma m_step_emissions_weight_scale_witness :
  let stats := _compute_expected_suff_stats unit_params two_emissions
                                            two_weights two_covariates in
  let stats' := _compute_expected_suff_stats unit_params two_emissions
                                             (2 *: two_weights)
                                             two_covariates in
  let fit := emissions (_m_step_emissions unit_params tt stats) in
  let fit' := emissions (_m_step_emissions unit_params tt stats') in
  [/\ (2 : rat) != 0, sum_x1x1T (stats_at stats ord0) \in unitmx
    & [/\ weights fit' ord0 = weights fit ord0,
          row ord0 (biases fit') = row ord0 (biases fit)
        & covs fit' ord0 = covs fit ord0]].
Proof.
move=> stats stats' fit fit'.
have c_neq0 : (2 : rat) != 0 by [].
have unitG : sum_x1x1T (stats_at stats ord0) \in unitmx.
  by rewrite gram_two_data unitmx1.
split; [exact: c_neq0 | exact: unitG | ].
have fact :=
  @m_step_emissions_weight_scale rat 1 1 1 unit unit unit_params tt 2
    two_emissions two_weights two_covariates 2 ord0.
exact: (fact c_neq0 unitG).
Defined.

Lemma m_step_emissions_covariance_residual_witness :
  let stats := _compute_expected_suff_stats unit_params two_emissions
                                            two_weights two_covariates in
  let fit := emissions (_m_step_emissions unit_params tt stats) in
  sum_x1x1T (stats_at stats ord0) \in unitmx
  /\ covs fit ord0
     = (1 / sum_w stats 0 ord0)
       *: residual_moment two_emissions two_weights two_covariates ord0
            (row_mx (weights fit ord0) (row ord0 (biases fit))^T).
Proof.
move=> stats fit.
have unitG : sum_x1x1T (stats_at stats ord0) \in unitmx.
  by rewrite gram_two_data unitmx1.
split; first exact: unitG.
exact: (m_step_emissions_covariance_residual (params := unit_params) tt
          unitG).
Defined.

Lemma m_step_emissions_least_squares_witness :
  let stats := _compute_expected_suff_stats unit_params two_emissions
                                            two_weights two_covariates in
  let fit := emissions (_m_step_emissions unit_params tt stats) in
  [/\ forall t, 0 <= two_weights t ord0,
      sum_x1x1T (stats_at stats ord0) \in unitmx
    & psd (residual_moment two_emissions two_weights two_covariates ord0 0
           - residual_moment two_emissions two_weights two_covariates ord0
               (row_mx (weights fit ord0) (row ord0 (biases fit))^T))].
Proof.
move=> stats fit.
have w_ge0 t : 0 <= two_weights t ord0 by rewrite mxE.
have unitG : sum_x1x1T (stats_at stats ord0) \in unitmx.
  by rewrite gram_two_data unitmx1.
split; [exact: w_ge0 | exact: unitG | ].
exact: (m_step_emissions_least_squares (params := unit_params) tt 0 w_ge0
          unitG).
Defined.

Lemma m_step_emissions_exact_fit_witness :
  let W : 'M[rat]_1 := (- 1)%:M in
  let b : 'rV[rat]_1 := 2%:M in
  let ems := two_covariates *m W^T + (const_mx 1 : 'cV[rat]_2) *m b in
  let stats := _compute_expected_suff_stats unit_params ems two_weights
                                            two_covariates in
  let fit := _m_step_emissions unit_params tt stats in
  sum_x1x1T (stats_at stats ord0) \in unitmx
  /\ [/\ weights (emissions fit) ord0 = W,
         row ord0 (biases (emissions fit)) = b,
         covs (emissions fit) ord0 = 0
       & forall t,
           loc (emission_distribution fit ord0 (row t two_covariates))
           = row t ems].
Proof.
move=> W b ems stats fit.
have unitG : sum_x1x1T (stats_at stats ord0) \in unitmx.
  by rewrite gram_two_data unitmx1.
split; first exact: unitG.
exact: (m_step_emissions_exact_fit (params := unit_params) tt unitG).
Defined.

Lemma initialize_kmeans_needs_emissions_witness :
  lower "KMeans" = "kmeans"%string
  /\ initialize (E := plain_externals) (covariate_dim := 1)
                (emission_dim := 1) tt "KMeans" None None
                (Some [ffun=> 0]) (Some 0) (Some [ffun=> 1%:M]) None
     = AssertionError "Need emissions to initialize the model with K-Means!".
Proof.
split; first by [].
exact: (@initialize_kmeans_needs_emissions rat 1 1 1 plain_externals tt None
          None "KMeans" _ _ _ erefl).
Defined.

Lemma initialize_rejects_other_methods_witness :
  [/\ String.eqb (lower "Random") "kmeans" = false,
      String.eqb (lower "Random") "prior" = false
    & initialize (E := plain_externals) (covariate_dim := 1)
                 (emission_dim := 1) tt "Random" None None None None None
                 None
      = Exception "Invalid initialization method: Random"].
Proof.
split; [by [] | by [] | ].
exact: (@initialize_rejects_other_methods rat 1 1 1 plain_externals tt None
          None "Random" None None None None erefl erefl).
Defined.

End LinearRegressionHMMMore.
(** ** The blocked Gibbs sampler *)

Module BlockedGibbsProps.

Import BlockedGibbs.

Section Scan.

Variables (C X Y : Type) (f : C -> X -> C * Y).

Lemma scan_cons c x xs :
  scan f c (x :: xs)
  = ((scan f (f c x).1 xs).1, (f c x).2 :: (scan f (f c x).1 xs).2).
Proof. by rewrite /=; case: (f c x) => c1 y /=; case: (scan f c1 xs). Qed.

Lemma size_scan c xs : size (scan f c xs).2 = size xs.
Proof. by elim: xs c => [|x xs IH] c //; rewrite scan_cons /= IH. Qed.

Lemma scan_carry0 c xs : scan_carry f c xs 0 = c.
Proof. by rewrite /scan_carry take0. Qed.

Lemma scan_carry_cons c x xs i :
  scan_carry f c (x :: xs) i.+1 = scan_carry f (f c x).1 xs i.
Proof. by rewrite /scan_carry [take i.+1 _]/= scan_cons. Qed.

Lemma scan_carryS x0 c xs (i : nat) :
  (i < size xs)%N ->
  scan_carry f c xs i.+1 = (f (scan_carry f c xs i) (nth x0 xs i)).1.
Proof.
elim: xs c i => [|x xs IH] c [|i] //= lt_i.
  by rewrite scan_carry_cons !scan_carry0.
by rewrite !scan_carry_cons IH.
Qed.

Lemma nth_scan x0 y0 c xs (i : nat) :
  (i < size xs)%N ->
  nth y0 (scan f c xs).2 i = (f (scan_carry f c xs i) (nth x0 xs i)).2.
Proof.
elim: xs c i => [|x xs IH] c [|i] //= lt_i; rewrite -/(scan f _ _).
  by rewrite scan_carry0; case: (f c x) => c1 y; case: (scan f c1 xs).
rewrite scan_carry_cons -IH //.
by case: (f c x) => c1 y; case: (scan f c1 xs).
Qed.

End Scan.

Section Stats.

Variable R : realFieldType.
Variables (T D_hid D_obs D_in : nat).
Variable emissions : 'M[R]_(T.+1, D_obs).
Variable inputs : 'M[R]_(T.+1, D_in).
Variable states : 'M[R]_(T.+1, D_hid).

(** C4, as the code has it: with [T.+1] time steps, the count of the
    emission statistics is [T.+1], the count of the dynamics statistics is
    [T.+1 - 1 = T], and the count of the initial-state statistics is [1]. *)
Theorem sufficient_stats_counts :
  let: (init_stats, dynamics_stats, emission_stats) :=
    sufficient_stats_from_sample emissions inputs states in
  [/\ emission_stats.2 = T.+1%:Z,
      dynamics_stats.2 = T.+1%:Z - 1,
      dynamics_stats.2 = T%:Z
    & init_stats.2 = 1].
Proof. by split=> //=; rewrite -addn1 PoszD addrK. Qed.

(** The block matrices are Gram matrices of the stacked features
    [z[t] = [x[t], u[t]]]. *)
Lemma sum_zzT_gram :
  let: (_, _, (sum_zzT, _, _, _)) :=
    sufficient_stats_from_sample emissions inputs states in
  sum_zzT = (row_mx states inputs)^T *m row_mx states inputs.
Proof. by rewrite /= tr_row_mx mul_col_row. Qed.

Lemma sum_zpzpT_gram :
  let: (_, (sum_zpzpT, _, _, _), _) :=
    sufficient_stats_from_sample emissions inputs states in
  sum_zpzpT
  = (row_mx (row' ord_max states) (row' ord_max inputs))^T
    *m row_mx (row' ord_max states) (row' ord_max inputs).
Proof. by rewrite /= tr_row_mx mul_col_row. Qed.

(** C9: [sum_zzT] and [sum_zpzpT] are symmetric and positive
    semi-definite. *)
Theorem block_second_moments_psd :
  let: (_, (sum_zpzpT, _, _, _), (sum_zzT, _, _, _)) :=
    sufficient_stats_from_sample emissions inputs states in
  [/\ symmetric sum_zzT, psd sum_zzT, symmetric sum_zpzpT & psd sum_zpzpT].
Proof.
have := sum_zzT_gram; have := sum_zpzpT_gram.
rewrite /sufficient_stats_from_sample /= => -> ->.
by split; [exact: symmetric_gram | exact: psd_gram
          | exact: symmetric_gram | exact: psd_gram].
Qed.

End Stats.

Section Sweeps.

Variable R : realFieldType.
Variable E : externals R.
Variables (T D_hid D_obs D_in : nat).
Variable key : PRNGKey E.
Variable emissions : 'M[R]_(T.+1, D_obs).
Variable inputs : 'M[R]_(T.+1, D_in).
Variable initial_prior : NIW E D_hid.
Variable dynamics_prior : MNIW E D_hid (D_hid + D_in).
Variable emission_prior : MNIW E D_obs (D_hid + D_in).

Local Notation step :=
  (one_sample emissions inputs initial_prior dynamics_prior emission_prior).
Local Notation p0 := (params_0 initial_prior dynamics_prior emission_prior).

Lemma one_sample_record params rng :
  (step params rng).2
  = (params,
     log_prior_prob initial_prior dynamics_prior emission_prior params
     + (lgssm_posterior_sample (tnth (jr_split rng 2) ord0) params emissions
                               inputs).1).
Proof.
by rewrite /one_sample; case: (lgssm_posterior_sample _ _ _ _).
Qed.

Lemma one_sample_draw params rng :
  (step params rng).1
  = let rngs := jr_split rng 2 in
    let traj := lgssm_posterior_sample (tnth rngs ord0) params emissions
                                       inputs in
    let st := sufficient_stats_from_sample emissions inputs traj.2 in
    lgssm_params_sample initial_prior dynamics_prior emission_prior
                        (tnth rngs ord_max) st.1.1 st.1.2 st.2.
Proof.
by rewrite /one_sample; case: (lgssm_posterior_sample _ _ _ _).
Qed.

Lemma run_sweepsE sample_size :
  run_sweeps key emissions inputs initial_prior dynamics_prior emission_prior
             sample_size
  = (unzip2 (scan step p0 (jr_split key sample_size)).2,
     unzip1 (scan step p0 (jr_split key sample_size)).2).
Proof. by rewrite /run_sweeps; case: (scan _ _ _). Qed.

Lemma run_sweeps_sizes sample_size :
  let res := run_sweeps key emissions inputs initial_prior dynamics_prior
                        emission_prior sample_size in
  size res.1 = sample_size /\ size res.2 = sample_size.
Proof.
by rewrite /= run_sweepsE /= /unzip1 /unzip2 !size_map size_scan size_tuple.
Qed.

Lemma run_sweeps_nth sample_size (i : 'I_sample_size) :
  let keys := jr_split key sample_size in
  let start := scan_carry step p0 keys in
  let res := run_sweeps key emissions inputs initial_prior dynamics_prior
                        emission_prior sample_size in
  [/\ nth (start 0) res.2 i = start i,
      nth 0 res.1 i = (step (start i) (tnth keys i)).2.2
    & start i.+1 = (step (start i) (tnth keys i)).1].
Proof.
move=> keys start res.
have lt_i : (i < size keys)%N by rewrite size_tuple.
have rec_i : nth (start 0, 0) (scan step p0 keys).2 i
             = (step (start i) (tnth keys i)).2.
  by rewrite (nth_scan _ (tnth keys i)) // -tnth_nth.
split.
- rewrite /res run_sweepsE /= -/keys.
  by rewrite (nth_map (start 0, 0)) ?size_scan // rec_i one_sample_record.
- rewrite /res run_sweepsE /= -/keys.
  by rewrite (nth_map (start 0, 0)) ?size_scan // rec_i.
- by rewrite /start (scan_carryS _ (tnth keys i)) // -tnth_nth.
Qed.

End Sweeps.

Section Entry.

Variable R : realFieldType.
Variable E : externals R.
Variables (T D_obs D_hid : nat).
Variable key : PRNGKey E.
Variable emissions : 'M[R]_(T.+1, D_obs).
Variable inputs : inputs_arg R T.
Variable priors : option (priors_t E D_hid D_obs (D_in_of inputs)).

Lemma blocked_gibbsE sample_size :
  blocked_gibbs key sample_size emissions priors
  = run_sweeps key emissions (projT2 (inputs_or_zeros inputs))
               (resolve_priors key emissions priors).1.1
               (resolve_priors key emissions priors).1.2
               (resolve_priors key emissions priors).2 sample_size.
Proof.
by rewrite /blocked_gibbs; case: (resolve_priors _ _ _) => [[ip dp] ep].
Qed.

(** C1, as the code has it: sweep [i] records the parameters it starts from
    (the output of the scan body is its input carry), together with their
    log prior density plus the marginal log-likelihood of the trajectory
    sampled in the sweep; the parameters drawn in sweep [i] are those sweep
    [i+1] starts from. *)
Theorem blocked_gibbs_records sample_size (i : 'I_sample_size) :
  let u := projT2 (inputs_or_zeros inputs) in
  let pri := resolve_priors key emissions priors in
  let keys := jr_split key sample_size in
  let start :=
    scan_carry (one_sample emissions u pri.1.1 pri.1.2 pri.2)
               (params_0 pri.1.1 pri.1.2 pri.2) keys in
  let rngs := jr_split (tnth keys i) 2 in
  let traj := lgssm_posterior_sample (tnth rngs ord0) (start i) emissions u in
  let st := sufficient_stats_from_sample emissions u traj.2 in
  let drawn :=
    lgssm_params_sample pri.1.1 pri.1.2 pri.2 (tnth rngs ord_max)
                        st.1.1 st.1.2 st.2 in
  let res := blocked_gibbs key sample_size emissions priors in
  [/\ size res.1 = sample_size /\ size res.2 = sample_size,
      nth (start 0) res.2 i = start i,
      nth 0 res.1 i
      = log_prior_prob pri.1.1 pri.1.2 pri.2 (start i) + traj.1,
      start 0 = params_0 pri.1.1 pri.1.2 pri.2
    & start i.+1 = drawn].
Proof.
move=> u pri keys start rngs traj st drawn res.
have [rec_i lp_i next_i] :=
  run_sweeps_nth key emissions u pri.1.1 pri.1.2 pri.2 i.
split.
- by rewrite /res blocked_gibbsE; apply: run_sweeps_sizes.
- by rewrite /res blocked_gibbsE.
- by rewrite /res blocked_gibbsE /= lp_i one_sample_record.
- by rewrite /start scan_carry0.
- by rewrite /start next_i one_sample_draw.
Qed.

(** C6: the first sweep starts from the modes of the three priors, the
    input-weight columns being those after the first [D_hid] columns of
    the coefficient modes; no key enters [params_0]. *)
Theorem blocked_gibbs_starts_at_prior_modes (m : nat) :
  let u := projT2 (inputs_or_zeros inputs) in
  let pri := resolve_priors key emissions priors in
  let p0 := params_0 pri.1.1 pri.1.2 pri.2 in
  let keys := jr_split key m.+1 in
  [/\ scan_carry (one_sample emissions u pri.1.1 pri.1.2 pri.2) p0 keys 0
      = p0,
      ohead (blocked_gibbs key m.+1 emissions priors).2 = Some p0,
      [/\ (initial_covariance p0, initial_mean p0) = niw_mode pri.1.1,
          (dynamics_covariance p0,
           row_mx (dynamics_matrix p0) (dynamics_input_weights p0))
          = mniw_mode pri.1.2
        & (emission_covariance p0,
           row_mx (emission_matrix p0) (emission_input_weights p0))
          = mniw_mode pri.2]
    & [/\ dynamics_matrix p0 = lsubmx (mniw_mode pri.1.2).2,
          dynamics_input_weights p0 = rsubmx (mniw_mode pri.1.2).2,
          emission_matrix p0 = lsubmx (mniw_mode pri.2).2
        & emission_input_weights p0 = rsubmx (mniw_mode pri.2).2]].
Proof.
move=> u pri p0 keys.
have p0E : p0 = params_0 pri.1.1 pri.1.2 pri.2 by [].
split.
- by rewrite scan_carry0.
- have [_] := run_sweeps_sizes key emissions u pri.1.1 pri.1.2 pri.2 m.+1.
  have [+ _ _] :=
    run_sweeps_nth key emissions u pri.1.1 pri.1.2 pri.2 (@ord0 m).
  rewrite blocked_gibbsE -/pri -/u !scan_carry0.
  by case: (run_sweeps _ _ _ _ _ _ _).2 => [|p ps] //= ->.
- rewrite p0E /params_0; case: (niw_mode _) => ? ?.
  by case: (mniw_mode _) => ? ?; case: (mniw_mode _) => ? ?; rewrite /= !hsubmxK.
rewrite p0E /params_0; case: (niw_mode _) => ? ?.
by case: (mniw_mode _) => ? ?; case: (mniw_mode _) => ? ?.
Qed.

End Entry.

Section NoInputs.

Variable R : realFieldType.
Variable E : externals R.
Variables (T D_obs D_hid : nat).
Variable key : PRNGKey E.
Variable emissions : 'M[R]_(T.+1, D_obs).
Variable priors : option (priors_t E D_hid D_obs 0).

(** C10: with [inputs = None] the sampler is the sampler run on an input
    array with [num_timesteps] rows and no column; the input dimension is
    [0] and the input weights of every returned sample have no column. *)
Theorem blocked_gibbs_inputs_none (sample_size : nat) :
  let res := blocked_gibbs key sample_size emissions (inputs := None) priors in
  [/\ res = blocked_gibbs key sample_size emissions
                          (inputs := Some (existT (fun d => 'M[R]_(T.+1, d)) 0%N
                                                 (0 : 'M[R]_(T.+1, 0))))
                          priors,
      D_in_of (None : inputs_arg R T) = 0%N
    & all (fun p => (shape1 (dynamics_input_weights p) == 0%N)
                    && (shape1 (emission_input_weights p) == 0%N)) res.2].
Proof. by move=> res; split=> //; elim: (res.2). Qed.

End NoInputs.

End BlockedGibbsProps.

Module BlockedGibbsExamples.

Import BlockedGibbs BlockedGibbsProps BlockedGibbsData.

(** With two time steps the count of the initial-state statistics is [1],
    not [2]. *)
Lemma initial_count_is_not_num_timesteps :
  let: (init_stats, _, _) :=
    sufficient_stats_from_sample two_steps (0 : 'M[rat]_(2, 0))
                                 (0 : 'M[rat]_(2, 1)) in
  init_stats.2 <> 2%:Z.
Proof. by []. Qed.

(** One sweep from the prior modes: the recorded sample is the prior mode,
    whose mean is [0], and not the sample drawn in the sweep, whose mean is
    [1]. *)
Lemma first_record_is_not_first_draw :
  let res := blocked_gibbs (E := constant_draws) tt 1 two_steps (D_hid := 1)
                           (inputs := None) None in
  let p0 := params_0 (E := constant_draws) (D_hid := 1) (D_obs := 1)
                     (D_in := 0) tt tt tt in
  let drawn := (one_sample (E := constant_draws) two_steps 0 tt tt tt p0 tt).1 in
  [/\ res.2 = [:: p0], initial_mean p0 = 0, initial_mean drawn = const_mx 1
    & nth drawn res.2 0 <> drawn].
Proof.
move=> res p0 drawn.
have resE : res.2 = [:: p0] by [].
have p0E : initial_mean p0 = 0 by [].
have drawnE : initial_mean drawn = const_mx 1 by [].
split=> //; rewrite resE /= => eq_p0.
have := congr1 (fun p => initial_mean p 0 0) eq_p0.
by rewrite p0E drawnE !mxE.
Qed.

End BlockedGibbsExamples.
(** ** More on the sampler: the statistics of a trajectory, the draws *)

Module BlockedGibbsMore.

Import BlockedGibbs BlockedGibbsProps.

Section Rows.

Variable R : realFieldType.

(** A product [A^T B] over [T.+1] rows, with the first or the last row
    taken apart. *)
Lemma gram_first_row T d e (A : 'M[R]_(T.+1, d)) (B : 'M[R]_(T.+1, e)) :
  A^T *m B = outer (row ord0 A) (row ord0 B)
             + (row' ord0 A)^T *m row' ord0 B.
Proof.
apply/matrixP=> i j; rewrite [RHS]mxE outerE [LHS]mxE big_ord_recl.
congr (_ + _); first by rewrite !mxE.
by rewrite [RHS]mxE; apply: eq_bigr => t _; rewrite !mxE.
Qed.

Lemma gram_last_row T d e (A : 'M[R]_(T.+1, d)) (B : 'M[R]_(T.+1, e)) :
  A^T *m B = (row' ord_max A)^T *m row' ord_max B
             + outer (row ord_max A) (row ord_max B).
Proof.
apply/matrixP=> i j; rewrite [RHS]mxE outerE [LHS]mxE big_ord_recr.
congr (_ + _); last by rewrite !mxE.
rewrite [RHS]mxE; apply: eq_bigr => t _; rewrite !mxE.
have -> : lift ord_max t = widen_ord (leqnSn T) t.
  by apply: val_inj; rewrite [LHS]lift_max.
by [].
Qed.

End Rows.

Section Stats.

Variable R : realFieldType.
Variables (T D_hid D_obs D_in : nat).
Variable emissions : 'M[R]_(T.+1, D_obs).
Variable inputs : 'M[R]_(T.+1, D_in).
Variable states : 'M[R]_(T.+1, D_hid).

(** The statistics of the emissions are those of the dynamics plus the
    contribution of the last time step, and the second moment of the
    states is that of the successor states plus the outer product of the
    first state, which is the initial-state statistic. *)
Theorem sufficient_stats_time_steps :
  let: ((_, init_xxT, _), (sum_zpzpT, _, sum_xnxnT, _), (sum_zzT, _, _, _)) :=
    sufficient_stats_from_sample emissions inputs states in
  let z_last := row_mx (row ord_max states) (row ord_max inputs) in
  sum_zzT = sum_zpzpT + outer z_last z_last
  /\ states^T *m states = sum_xnxnT + init_xxT.
Proof.
have := sum_zzT_gram emissions inputs states.
have := sum_zpzpT_gram emissions inputs states.
rewrite /sufficient_stats_from_sample /= => -> ->; split.
  by rewrite [LHS]gram_last_row row'_row_mx row_row_mx.
by rewrite [LHS]gram_first_row addrC.
Qed.

(** The remaining second moments are symmetric and positive semi-definite
    as well: those of the observations, of the successor states, and the
    outer product of the first state. *)
Theorem second_moments_psd :
  let: ((_, init_xxT, _), (_, _, sum_xnxnT, _), (_, _, sum_yyT, _)) :=
    sufficient_stats_from_sample emissions inputs states in
  [/\ symmetric sum_yyT /\ psd sum_yyT,
      symmetric sum_xnxnT /\ psd sum_xnxnT
    & symmetric init_xxT /\ psd init_xxT].
Proof.
rewrite /sufficient_stats_from_sample /= /outer.
by split; (split; [exact: symmetric_gram | exact: psd_gram]).
Qed.

End Stats.

Section OneStep.

Variable R : realFieldType.
Variables (D_hid D_obs D_in : nat).
Variable emissions : 'M[R]_(1, D_obs).
Variable inputs : 'M[R]_(1, D_in).
Variable states : 'M[R]_(1, D_hid).

(** A trajectory of a single time step has no transition: the dynamics
    statistics are zero matrices with count [0], and the emission
    statistics are the outer products of that one step. *)
Theorem sufficient_stats_single_step :
  let: (_, dynamics_stats, (sum_zzT, sum_zyT, sum_yyT, _)) :=
    sufficient_stats_from_sample (T := 0) emissions inputs states in
  let z := row_mx states inputs in
  [/\ dynamics_stats = (0, 0, 0, 0),
      sum_zzT = outer z z,
      sum_zyT = outer z emissions
    & sum_yyT = outer emissions emissions].
Proof.
have := sum_zzT_gram emissions inputs states.
rewrite /sufficient_stats_from_sample /= => ->.
split=> //.
- rewrite ![row' _ _]flatmx0 !trmx0 !mul0mx block_mx0 col_mx0.
  by rewrite subrr.
- by rewrite /outer tr_row_mx mul_col_mx.
Qed.

End OneStep.

Section Draws.

Variable R : realFieldType.
Variable E : externals R.
Variables (T D_hid D_obs D_in : nat).
Variable initial_prior : NIW E D_hid.
Variable dynamics_prior : MNIW E D_hid (D_hid + D_in).
Variable emission_prior : MNIW E D_obs (D_hid + D_in).

(** Splitting a drawn coefficient matrix into state and input columns
    loses nothing: stacked again, the parameters of a sample are the three
    posterior draws, each made with its own key of the three-way split, so
    the log prior of a sample is the prior density at those draws. *)
Theorem lgssm_params_sample_draws (rng : PRNGKey E)
    (init_stats : 'rV[R]_D_hid * 'M[R]_D_hid * int)
    (dynamics_stats :
       'M[R]_(D_hid + D_in) * 'M[R]_(D_hid + D_in, D_hid) * 'M[R]_D_hid * int)
    (emission_stats :
       'M[R]_(D_hid + D_in) * 'M[R]_(D_hid + D_in, D_obs) * 'M[R]_D_obs * int) :
  let rngs := jr_split rng 3 in
  let p := lgssm_params_sample initial_prior dynamics_prior emission_prior rng
                               init_stats dynamics_stats emission_stats in
  let draw_init :=
    niw_sample (niw_posterior_update initial_prior init_stats)
               (tnth rngs ord0) in
  let draw_dyn :=
    mniw_sample (mniw_posterior_update dynamics_prior dynamics_stats)
                (tnth rngs (lift ord0 ord0)) in
  let draw_ems :=
    mniw_sample (mniw_posterior_update emission_prior emission_stats)
                (tnth rngs ord_max) in
  [/\ (initial_covariance p, initial_mean p) = draw_init,
      (dynamics_covariance p,
       row_mx (dynamics_matrix p) (dynamics_input_weights p)) = draw_dyn,
      (emission_covariance p,
       row_mx (emission_matrix p) (emission_input_weights p)) = draw_ems
    & log_prior_prob initial_prior dynamics_prior emission_prior p
      = niw_log_prob initial_prior draw_init
        + mniw_log_prob dynamics_prior draw_dyn
        + mniw_log_prob emission_prior draw_ems].
Proof.
move=> rngs p draw_init draw_dyn draw_ems.
rewrite /p /draw_init /draw_dyn /draw_ems /rngs /lgssm_params_sample
        /log_prior_prob.
case: (niw_sample _ _) => S_ m.
case: (mniw_sample (mniw_posterior_update dynamics_prior _) _) => Q FB.
case: (mniw_sample (mniw_posterior_update emission_prior _) _) => R_ HD.
by rewrite /= !hsubmxK.
Qed.

End Draws.

Section Lengths.

Variable R : realFieldType.
Variable E : externals R.
Variables (T D_obs D_hid : nat).
Variable key : PRNGKey E.
Variable emissions : 'M[R]_(T.+1, D_obs).
Variable inputs : inputs_arg R T.
Variable priors : option (priors_t E D_hid D_obs (D_in_of inputs)).

(** The sampler returns as many log-probabilities and as many samples as
    sweeps were asked for; with no sweep both sequences are empty. *)
Theorem blocked_gibbs_lengths (sample_size : nat) :
  let res := blocked_gibbs key sample_size emissions priors in
  [/\ size res.1 = sample_size, size res.2 = sample_size
    & blocked_gibbs key 0 emissions priors = ([::], [::])].
Proof.
move=> res; rewrite /res !blocked_gibbsE.
have [sz1 sz2] := run_sweeps_sizes key emissions (projT2 (inputs_or_zeros inputs))
  (resolve_priors key emissions priors).1.1
  (resolve_priors key emissions priors).1.2
  (resolve_priors key emissions priors).2 sample_size.
split=> //; rewrite run_sweepsE.
by rewrite (tuple0 (jr_split key 0)).
Qed.

End Lengths.

End BlockedGibbsMore.
(** ** Constrained and unconstrained parameters *)

Module ParametersProps.

Import Parameters.

Section Induction.

Variables (A : Type) (P : pytree A -> Prop).
Hypothesis P_leaf : forall a, P (Leaf a).
Hypothesis P_node :
  forall ts, foldr (fun kt acc => P kt.2 /\ acc) True ts -> P (Node ts).

(** Induction over a tree and the entries of its dictionaries. *)
Lemma pytree_nested_ind t : P t.
Proof.
move: t; fix IH 1 => -[a|ts]; first exact: P_leaf.
apply: P_node; elim: ts => [|kt ts IHts] //=; split=> //; exact: IH.
Qed.

End Induction.

Section RoundTrip.

Variable V : Type.

Local Notation props_t := (pytree (ParameterProperties (Bijector V))).

Lemma from_unc_to_unc (value : V) (prop : ParameterProperties (Bijector V)) :
  constrained_leaf value prop ->
  (let value' :=
     if constrainer prop is Some c then
       forward c (if constrainer prop is Some c' then inverse c' value
                  else value)
     else (if constrainer prop is Some c' then inverse c' value else value) in
   if ~~ trainable prop then stop_gradient value' else value') = value.
Proof.
rewrite /constrained_leaf /stop_gradient.
by case: (constrainer prop) => [c [law_c c_value]|_] /=; case: ifP => _ //;
   exact: law_c.
Qed.

(** C5: on parameters whose leaves are constrained values of their (lawful)
    constrainers, [to_unconstrained] returns a tree and
    [from_unconstrained] maps that tree back to the parameters. *)
Theorem from_unconstrained_to_unconstrained (params : pytree V)
    (props : props_t) :
  tree_all2 (@constrained_leaf V) params props ->
  exists2 unc_params,
    to_unconstrained params props = Some unc_params
    & from_unconstrained unc_params props = Some params.
Proof.
rewrite /to_unconstrained /from_unconstrained.
elim/pytree_nested_ind: params props => [value|ts IHts] [prop|us] //=.
  by move=> /from_unc_to_unc /= eq_v; eexists; first by []; rewrite /= eq_v.
move=> all_ts.
suff [uncs eq_unc eq_back] :
  exists2 uncs,
    map_entries (tree_map (fun value prop =>
                    if constrainer prop is Some c then inverse c value
                    else value)) ts us = Some uncs
    & map_entries (tree_map (fun unc_value prop =>
                    let value := if constrainer prop is Some c
                                 then forward c unc_value else unc_value in
                    if ~~ trainable prop then stop_gradient value else value))
                  uncs us = Some ts.
  by exists (Node uncs); rewrite /= ?eq_unc ?eq_back.
elim: ts IHts us all_ts => [_|[k t] ts IHrec /= [IHt IHts]] [|[k' u] us] //=.
  by move=> _; exists [::].
move=> [eq_k /IHt [unc -> /= back_t] /(IHrec IHts) [uncs -> /= back_ts]].
by rewrite eq_k; exists ((k, unc) :: uncs); rewrite //= eq_k back_t back_ts.
Qed.

End RoundTrip.

Lemma lawful_doubling : lawful doubling.
Proof.
move=> y /= even_y.
by rewrite -mulrA -[2]/(2%:Z) -PoszM divnK // -intEsg.
Qed.

Lemma from_unconstrained_to_unconstrained_witness :
  tree_all2 (@constrained_leaf int) example_params example_props
  /\ exists2 unc_params,
       to_unconstrained example_params example_props = Some unc_params
       & from_unconstrained unc_params example_props = Some example_params.
Proof.
have ok : tree_all2 (@constrained_leaf int) example_params example_props.
  by do !split=> //; exact: lawful_doubling.
by split=> //; apply: from_unconstrained_to_unconstrained ok.
Defined.

End ParametersProps.
(** ** More on parameter trees: structure, the other round trip, log-dets *)

Module ParametersMore.

Import Parameters ParametersProps.

Section TreeMapFacts.

Variables (A B C : Type).

(** [tree_map] returns exactly on trees of the same structure. *)
Lemma tree_map_same_structure (f : A -> B -> C) (t : pytree A)
    (u : pytree B) :
  isSome (tree_map f t u) = same_structure t u.
Proof.
elim/pytree_nested_ind: t u => [a|ts IHts] [b|us] //=.
suff <- : isSome (map_entries (tree_map f) ts us)
          = same_entries (@same_structure A B) ts us.
  by case: (map_entries (tree_map f) ts us).
elim: ts IHts us => [_|[k t] ts IHrec /= [IHt IHts]] [|[k' u] us] //=.
case: (String.eqb k k') => //=.
rewrite -IHt -(IHrec IHts).
by case: (tree_map f t u) => [v|] //=; case: (map_entries _ ts us).
Qed.

(** The result of [tree_map] has the structure of its arguments. *)
Lemma tree_map_structure (f : A -> B -> C) (t : pytree A) (u : pytree B)
    (v : pytree C) :
  tree_map f t u = Some v -> same_structure v u.
Proof.
elim/pytree_nested_ind: t u v => [a|ts IHts] [b|us] v //=.
  by case=> <-.
case E: (map_entries (tree_map f) ts us) => [vs|] //= [<-] /=.
elim: ts IHts us vs E => [_|[k t] ts IHrec /= [IHt IHts]] [|[k' u] us] vs //=.
  by case=> <-.
case eq_k: (String.eqb k k') => //.
case Et: (tree_map f t u) => [v'|] //.
case Ets: (map_entries (tree_map f) ts us) => [vs'|] // [<-] /=.
by rewrite eq_k (IHt _ _ Et) (IHrec IHts _ _ Ets).
Qed.

End TreeMapFacts.

Section TreeMapLeaves.

Variables (A B : Type).

Lemma tree_all2_impl (P Q : A -> B -> Prop) (t : pytree A) (u : pytree B) :
  (forall a b, P a b -> Q a b) -> tree_all2 P t u -> tree_all2 Q t u.
Proof.
move=> PQ; elim/pytree_nested_ind: t u => [a|ts IHts] [b|us] //=.
  exact: PQ.
elim: ts IHts us => [_|[k t] ts IHrec /= [IHt IHts]] [|[k' u] us] //=.
by move=> [-> /IHt ? /(IHrec IHts) ?].
Qed.

(** A map that fixes every leaf returns its first argument. *)
Lemma tree_map_id (f : A -> B -> A) (t : pytree A) (u : pytree B) :
  tree_all2 (fun a b => f a b = a) t u -> tree_map f t u = Some t.
Proof.
elim/pytree_nested_ind: t u => [a|ts IHts] [b|us] //=; first by move=> ->.
move=> all_ts.
suff -> : map_entries (tree_map f) ts us = Some ts by [].
elim: ts IHts us all_ts => [_|[k t] ts IHrec /= [IHt IHts]] [|[k' u] us] //=.
by move=> [-> /IHt -> /(IHrec IHts) ->].
Qed.

(** Two maps, the second undoing the first at every leaf. *)
Lemma tree_map_cancel (C : Type) (f : A -> B -> C) (g : C -> B -> A)
    (t : pytree A) (u : pytree B) :
  tree_all2 (fun a b => g (f a b) b = a) t u ->
  exists2 v, tree_map f t u = Some v & tree_map g v u = Some t.
Proof.
elim/pytree_nested_ind: t u => [a|ts IHts] [b|us] //=.
  by move=> eq_a; exists (Leaf (f a b)); rewrite //= eq_a.
move=> all_ts.
suff [vs eq_vs eq_back] :
  exists2 vs, map_entries (tree_map f) ts us = Some vs
            & map_entries (tree_map g) vs us = Some ts.
  by exists (Node vs); rewrite /= ?eq_vs ?eq_back.
elim: ts IHts us all_ts => [_|[k t] ts IHrec /= [IHt IHts]] [|[k' u] us] //=.
  by move=> _; exists [::].
move=> [eq_k /IHt [v -> /= back_t] /(IHrec IHts) [vs -> /= back_ts]].
by rewrite eq_k; exists ((k, v) :: vs); rewrite //= eq_k back_t back_ts.
Qed.

End TreeMapLeaves.

Section Constrain.

Variable V : Type.

Local Notation props_t := (pytree (ParameterProperties (Bijector V))).

(** Both conversions return exactly when the parameters and the properties
    have the same structure (they raise otherwise), and the unconstrained
    tree has that structure again, so it can be converted back. *)
Theorem to_unconstrained_structure (params : pytree V) (props : props_t) :
  [/\ isSome (to_unconstrained params props) = same_structure params props,
      isSome (from_unconstrained params props) = same_structure params props
    & forall unc_params,
        to_unconstrained params props = Some unc_params ->
        same_structure unc_params props
        /\ isSome (from_unconstrained unc_params props)].
Proof.
split; try exact: tree_map_same_structure.
move=> unc /tree_map_structure same_unc; split=> //.
by rewrite /from_unconstrained tree_map_same_structure.
Qed.

(** The round trip from the unconstrained side: where [inverse] undoes
    [forward] at every leaf value, [from_unconstrained] returns a tree that
    [to_unconstrained] maps back to the unconstrained parameters. *)
Theorem to_unconstrained_from_unconstrained (unc_params : pytree V)
    (props : props_t) :
  tree_all2 (@unconstrained_leaf V) unc_params props ->
  exists2 params,
    from_unconstrained unc_params props = Some params
    & to_unconstrained params props = Some unc_params.
Proof.
move=> all_unc; apply: tree_map_cancel.
apply: tree_all2_impl all_unc => v prop.
rewrite /unconstrained_leaf /stop_gradient.
by case: (constrainer prop) => [c|] //=; case: (trainable prop).
Qed.

(** Properties without constrainers leave the parameters as they are, in
    both directions. *)
Theorem to_unconstrained_no_constrainer (params : pytree V)
    (props : props_t) :
  tree_all2 (fun _ prop => constrainer prop = None) params props ->
  to_unconstrained params props = Some params
  /\ from_unconstrained params props = Some params.
Proof.
move=> all_none; split; apply: tree_map_id.
- by apply: tree_all2_impl all_none => v prop ->.
- apply: tree_all2_impl all_none => v prop ->.
  by rewrite /stop_gradient; case: (trainable prop).
Qed.

Section LogDet.

Variable R : zmodType.
Variable forward_log_det_jacobian_sum : Bijector V -> V -> R.

Lemma foldl_add_zeros (s : seq R) :
  all (fun x => x == 0) s -> foldl +%R 0 s = 0.
Proof. by elim: s => [|x s IHs] //= /andP[/eqP -> /IHs]; rewrite addr0. Qed.

Lemma all_zero_flatten (ss : seq (seq R)) :
  all (fun x => x == 0) (flatten ss) = all (all (fun x => x == 0)) ss.
Proof. by elim: ss => [|s ss IHss] //=; rewrite all_cat IHss. Qed.

Lemma tree_map_zero_leaves (f : V -> ParameterProperties (Bijector V) -> R)
    (t : pytree V) (u : props_t) :
  tree_all2 (fun a b => f a b = 0) t u ->
  exists2 v, tree_map f t u = Some v
           & all (fun x => x == 0) (tree_leaves v).
Proof.
elim/pytree_nested_ind: t u => [a|ts IHts] [b|us] //=.
  by move=> eq0; exists (Leaf (f a b)); rewrite //= eq0 eqxx.
move=> all_ts.
suff [vs -> zeros] :
  exists2 vs, map_entries (tree_map f) ts us = Some vs
            & all (fun kt => all (fun x => x == 0) (tree_leaves kt.2)) vs.
  by exists (Node vs); rewrite //= all_zero_flatten all_map.
elim: ts IHts us all_ts => [_|[k t] ts IHrec /= [IHt IHts]] [|[k' u] us] //=.
  by move=> _; exists [::].
move=> [-> /IHt [v -> zero_v] /(IHrec IHts) [vs -> zero_vs]].
by exists ((k, v) :: vs); rewrite //= zero_v zero_vs.
Qed.

(** The log-determinant is zero when every leaf is either not trainable or
    without constrainer: only trainable constrained parameters add to
    it. *)
Theorem log_det_jac_constrain_zero (unc_params : pytree V)
    (props : props_t) :
  tree_all2 (@fixed_or_free_leaf V) unc_params props ->
  log_det_jac_constrain forward_log_det_jacobian_sum unc_params props
  = Some 0.
Proof.
move=> all_fixed; rewrite /log_det_jac_constrain.
set f := (X in tree_map X).
have [|v -> zeros] := tree_map_zero_leaves (f := f) (t := unc_params)
                                           (u := props).
  apply: tree_all2_impl all_fixed => x prop; rewrite /f.
  by case=> [->|->] //; case: (trainable prop).
by rewrite /= /tree_reduce_add foldl_add_zeros.
Qed.

(** The log-determinant raises exactly when the structures differ. *)
Lemma log_det_jac_constrain_structure (unc_params : pytree V)
    (props : props_t) :
  isSome (log_det_jac_constrain forward_log_det_jacobian_sum unc_params props)
  = same_structure unc_params props.
Proof.
rewrite /log_det_jac_constrain; set f := (X in tree_map X).
by rewrite -(tree_map_same_structure f); case: (tree_map _ _ _).
Qed.

End LogDet.

End Constrain.

(** *** Instances *)

Lemma to_unconstrained_from_unconstrained_witness :
  tree_all2 (@unconstrained_leaf int) example_unc_params example_props
  /\ exists2 params,
       from_unconstrained example_unc_params example_props = Some params
       & to_unconstrained params example_props = Some example_unc_params.
Proof.
have ok : tree_all2 (@unconstrained_leaf int) example_unc_params
                    example_props.
  by do !split.
split; first exact: ok.
exact: (to_unconstrained_from_unconstrained ok).
Defined.

Lemma to_unconstrained_no_constrainer_witness :
  tree_all2 (fun _ prop => constrainer prop = None) example_params
            example_props_plain
  /\ (to_unconstrained example_params example_props_plain
      = Some example_params
      /\ from_unconstrained example_params example_props_plain
         = Some example_params).
Proof.
have ok : tree_all2 (fun _ prop => constrainer prop = None) example_params
                    example_props_plain.
  by do !split.
split; first exact: ok.
exact: (to_unconstrained_no_constrainer ok).
Defined.

Lemma log_det_jac_constrain_zero_witness :
  tree_all2 (@fixed_or_free_leaf int) example_unc_params example_props_fixed
  /\ log_det_jac_constrain (fun _ _ => 1 : int) example_unc_params
                           example_props_fixed = Some 0.
Proof.
have ok : tree_all2 (@fixed_or_free_leaf int) example_unc_params
                    example_props_fixed.
  split=> //; split=> //; first by left.
  by split=> //; right.
split; first exact: ok.
exact: (log_det_jac_constrain_zero (fun _ _ => 1 : int) ok).
Defined.

End ParametersMore.
